(** * Snow-dome particle physics: the compute shader [updateSnowflakesFn]

    A shallow embedding of [src/snowdome/shaders/physics.ts] (the compute
    shader that advances every snowflake by one frame), of the noise function
    [noise3DFn] of [src/snowdome/shaders/common.ts] it calls, and of the
    dispatch issued by the render loop of [src/snowdome/index.ts].

    The shader is written once, over an interface [Scalar] for the arithmetic
    of the GPU type [f32].  Two interpretations are given:

    - [F32]: IEEE-754 binary32 as [spec_float], executable; the builtins
      [sin] and [cos] of [typegpu/std] are not code of this repository and
      are taken as parameters of the instance;
    - [R_scalar]: the real numbers, the idealisation in which the geometric
      statements (distances, normal and tangential components) are proved.

    Statements about the control flow and the data flow of the shader are
    proved for every interpretation, hence for binary32 as well. *)

From Stdlib Require Import ZArith NArith QArith Reals Lra Lia.
From Stdlib Require Import Floats.SpecFloat.
From stdpp Require Import base list.

(** ** The arithmetic of [f32] as an interface *)

Class Scalar (F : Type) := {
  fadd : F -> F -> F;
  fsub : F -> F -> F;
  fmul : F -> F -> F;
  fdiv : F -> F -> F;
  fsqrt : F -> F;
  fsin : F -> F;
  fcos : F -> F;
  fabs : F -> F;
  (** [fltb a b] is the test [a < b]. *)
  fltb : F -> F -> bool;
  (** A decimal literal of the source, such as [0.95]. *)
  lit : Q -> F;
  (** [d.f32(idx)] for an unsigned index. *)
  f32_of_u32 : N -> F;
  (** [d.f32(k)] for a signed integer, and [d.i32(v)]. *)
  f32_of_i32 : Z -> F;
  i32_of_f32 : F -> Z;
}.
Arguments lit {F _} q%_Q.

Declare Scope f32_scope.
Delimit Scope f32_scope with f32.
Infix "+" := fadd : f32_scope.
Infix "-" := fsub : f32_scope.
Infix "*" := fmul : f32_scope.
Infix "/" := fdiv : f32_scope.
Notation "a <? b" := (fltb a b) : f32_scope.
Notation "a >? b" := (fltb b a) : f32_scope.

(** ** Data model: [snowflake.ts], [physics.ts] *)

Record vec3f (F : Type) := d_vec3f { vec_x : F; vec_y : F; vec_z : F }.
Arguments d_vec3f {F} _ _ _.
Arguments vec_x {F} _.
Arguments vec_y {F} _.
Arguments vec_z {F} _.

Record Snowflake (F : Type) := mkSnowflake {
  position : vec3f F;
  velocity : vec3f F;
  size : F;
  phase : F;
  alpha : F;
  rotation : F;
}.
Arguments mkSnowflake {F} _ _ _ _ _ _.
Arguments position {F} _.
Arguments velocity {F} _.
Arguments size {F} _.
Arguments phase {F} _.
Arguments alpha {F} _.
Arguments rotation {F} _.

Record SimParams (F : Type) := mkSimParams {
  time : F;
  deltaTime : F;
  domeRadius : F;
  domeCenterY : F;
  floorY : F;
  gravity : F;
  dragCoeff : F;
  turbulence : F;
  restitution : F;
  shakeAccelX : F;
  shakeAccelY : F;
  shakeAccelZ : F;
  snowflakeCount : N;
}.
Arguments mkSimParams {F} _ _ _ _ _ _ _ _ _ _ _ _ _.
Arguments time {F} _.
Arguments deltaTime {F} _.
Arguments domeRadius {F} _.
Arguments domeCenterY {F} _.
Arguments floorY {F} _.
Arguments gravity {F} _.
Arguments dragCoeff {F} _.
Arguments turbulence {F} _.
Arguments restitution {F} _.
Arguments shakeAccelX {F} _.
Arguments shakeAccelY {F} _.
Arguments shakeAccelZ {F} _.
Arguments snowflakeCount {F} _.

(** The six mutable locals [posX .. velZ] of the shader body. *)
Record Locals (F : Type) := mkLocals {
  posX : F; posY : F; posZ : F;
  velX : F; velY : F; velZ : F;
}.
Arguments mkLocals {F} _ _ _ _ _ _.
Arguments posX {F} _.
Arguments posY {F} _.
Arguments posZ {F} _.
Arguments velX {F} _.
Arguments velY {F} _.
Arguments velZ {F} _.

(** [CONFIG.WORKGROUP_SIZE] of [config.ts]. *)
Definition WORKGROUP_SIZE : N := 64.

Section Shader.
Context {F : Type} `{Scalar F}.
Local Open Scope f32_scope.

(** *** [noise3DFn] ([common.ts]) *)

Definition noise3DFn (p : vec3f F) : F :=
  let px := vec_x p * lit 127.1 + vec_y p * lit 311.7 + vec_z p * lit 74.7 in
  let py := vec_x p * lit 269.5 + vec_y p * lit 183.3 + vec_z p * lit 246.1 in
  let pz := vec_x p * lit 113.5 + vec_y p * lit 271.9 + vec_z p * lit 124.6 in
  let twoPi := lit 6.2832 in
  let sinPx := px - f32_of_i32 (i32_of_f32 (px / twoPi)) * twoPi in
  let sinPy := py - f32_of_i32 (i32_of_f32 (py / twoPi)) * twoPi in
  let sinPz := pz - f32_of_i32 (i32_of_f32 (pz / twoPi)) * twoPi in
  let h1 := sinPx * sinPx * lit 43758.5453 in
  let h2 := sinPy * sinPy * lit 43758.5453 in
  let h3 := sinPz * sinPz * lit 43758.5453 in
  let frac1 := h1 - f32_of_i32 (i32_of_f32 h1) in
  let frac2 := h2 - f32_of_i32 (i32_of_f32 h2) in
  let frac3 := h3 - f32_of_i32 (i32_of_f32 h3) in
  (frac1 + frac2 + frac3) / lit 1.5 - lit 1.0.

(** *** The body of [updateSnowflakesFn] ([physics.ts]), stage by stage

    The body is straight-line code over six mutable locals.  Each block of
    it, in the order of the source, is a function on [Locals]: the forces
    and the integration (velocity, then position), the spherical boundary,
    the floor, and the respawn; [stepLocals] composes them and [writeBack]
    is the two assignments that end the body. *)

(** Drag: [dragX], [dragY], [dragZ]. *)
Definition dragForce (params : SimParams F) (l : Locals F) : vec3f F :=
  let speed := fsqrt (velX l * velX l + velY l * velY l + velZ l * velZ l) in
  if speed >? lit 0.001 then
    let dragCoeff' := dragCoeff params * speed in
    d_vec3f ((lit 0 - velX l) * dragCoeff')
            ((lit 0 - velY l) * dragCoeff')
            ((lit 0 - velZ l) * dragCoeff')
  else d_vec3f (lit 0) (lit 0) (lit 0).

(** Turbulence: [turbX], [turbY], [turbZ]. *)
Definition turbulenceForce (params : SimParams F) (snowflake : Snowflake F)
    (l : Locals F) : vec3f F :=
  let noiseScale := lit 2.0 in
  let noiseInput :=
    d_vec3f (posX l * noiseScale + time params * lit 0.5)
            (posY l * noiseScale + time params * lit 0.3)
            (posZ l * noiseScale + time params * lit 0.4) in
  let noiseVal := noise3DFn noiseInput in
  d_vec3f
    (fsin (noiseVal * lit 6.28 + time params + phase snowflake)
       * turbulence params)
    (fcos (noiseVal * lit 6.28 * lit 0.7 + time params * lit 0.8)
       * turbulence params * lit 0.3)
    (fsin (noiseVal * lit 6.28 * lit 1.3 + time params * lit 0.6
             + phase snowflake)
       * turbulence params).

(** The accumulated acceleration of each axis. *)
Definition totalAcceleration (params : SimParams F) (snowflake : Snowflake F)
    (l : Locals F) : vec3f F :=
  let gravityForce := lit 0 - gravity params in
  let drag := dragForce params l in
  let shakeX := shakeAccelX params in
  let shakeY := shakeAccelY params in
  let shakeZ := shakeAccelZ params in
  let turb := turbulenceForce params snowflake l in
  d_vec3f (vec_x drag + shakeX + vec_x turb)
          (gravityForce + vec_y drag + shakeY + vec_y turb)
          (vec_z drag + shakeZ + vec_z turb).

(** Velocity update, then position update. *)
Definition integrate (params : SimParams F) (snowflake : Snowflake F)
    (l : Locals F) : Locals F :=
  let acc := totalAcceleration params snowflake l in
  let dt := deltaTime params in
  let velX' := velX l + vec_x acc * dt in
  let velY' := velY l + vec_y acc * dt in
  let velZ' := velZ l + vec_z acc * dt in
  let posX' := posX l + velX' * dt in
  let posY' := posY l + velY' * dt in
  let posZ' := posZ l + velZ' * dt in
  mkLocals posX' posY' posZ' velX' velY' velZ'.

(** Spherical boundary of the dome. *)
Definition domeBoundary (params : SimParams F) (l : Locals F) : Locals F :=
  let relY := posY l - domeCenterY params in
  let dist := fsqrt (posX l * posX l + relY * relY + posZ l * posZ l) in
  let maxRadius := domeRadius params * lit 0.95 in
  if dist >? maxRadius then
    let nx := posX l / dist in
    let ny := relY / dist in
    let nz := posZ l / dist in
    let posX' := nx * maxRadius in
    let posY' := ny * maxRadius + domeCenterY params in
    let posZ' := nz * maxRadius in
    let velDotN := velX l * nx + velY l * ny + velZ l * nz in
    if velDotN >? lit 0.0 then
      let restitution' := restitution params in
      mkLocals posX' posY' posZ'
        ((velX l - lit 2.0 * velDotN * nx) * restitution')
        ((velY l - lit 2.0 * velDotN * ny) * restitution')
        ((velZ l - lit 2.0 * velDotN * nz) * restitution')
    else mkLocals posX' posY' posZ' (velX l) (velY l) (velZ l)
  else l.

(** Floor; the second component is the local [onFloor]. *)
Definition floorBoundary (params : SimParams F) (l : Locals F)
    : Locals F * F :=
  if posY l <? floorY params then
    let posY' := floorY params in
    let onFloor := lit 1 in
    let velY' :=
      if velY l <? lit 0.0
      then fabs (velY l) * restitution params * lit 0.5
      else velY l in
    (mkLocals (posX l) posY' (posZ l)
       (velX l * lit 0.9) velY' (velZ l * lit 0.9), onFloor)
  else (l, lit 0).

(** The pseudo-random value compared with the respawn threshold. *)
Definition respawnRand (params : SimParams F) (idx : N) : F :=
  let respawnChance :=
    f32_of_u32 idx * lit 0.0001 + time params * lit 10.0 in
  respawnChance - f32_of_i32 (i32_of_f32 respawnChance).

(** The respawn position. *)
Definition respawnPosition (params : SimParams F) (idx : N) : vec3f F :=
  let seed1 := f32_of_u32 idx * lit 0.1234 + time params * lit 0.567 in
  let seed2 := f32_of_u32 idx * lit 0.5678 + time params * lit 0.123 in
  let seed3 := f32_of_u32 idx * lit 0.9012 + time params * lit 0.345 in
  let twoPi := lit 6.2832 in
  let theta := (seed1 - f32_of_i32 (i32_of_f32 seed1)) * twoPi in
  let randR := seed2 - f32_of_i32 (i32_of_f32 seed2) in
  let sqrtR := fsqrt randR in
  let randH := seed3 - f32_of_i32 (i32_of_f32 seed3) in
  let heightRatio := lit 0.5 + randH * lit 0.35 in
  let spawnY := domeCenterY params + domeRadius params * heightRatio in
  let relativeY := spawnY - domeCenterY params in
  let maxRadiusAtHeight :=
    fsqrt (domeRadius params * domeRadius params * lit 0.9
           - relativeY * relativeY) in
  let safeRadius := maxRadiusAtHeight * lit 0.85 in
  let r := sqrtR * safeRadius in
  d_vec3f (fsin theta * r) spawnY (fcos theta * r).

(** Respawn of a snowflake that came to rest on the floor. *)
Definition respawn (params : SimParams F) (idx : N)
    (st : Locals F * F) : Locals F :=
  let (l, onFloor) := st in
  let totalSpeed :=
    fsqrt (velX l * velX l + velY l * velY l + velZ l * velZ l) in
  if (onFloor >? lit 0.5) && (totalSpeed <? lit 0.02) then
    if respawnRand params idx <? lit 0.05 then
      let p := respawnPosition params idx in
      mkLocals (vec_x p) (vec_y p) (vec_z p)
        (lit 0) (lit 0 - lit 0.01) (lit 0)
    else l
  else l.

Definition readLocals (snowflake : Snowflake F) : Locals F :=
  mkLocals (vec_x (position snowflake)) (vec_y (position snowflake))
           (vec_z (position snowflake))
           (vec_x (velocity snowflake)) (vec_y (velocity snowflake))
           (vec_z (velocity snowflake)).

(** The locals at the write-back, for invocation [idx] on [snowflake]. *)
Definition stepLocals (params : SimParams F) (idx : N)
    (snowflake : Snowflake F) : Locals F :=
  respawn params idx
    (floorBoundary params
       (domeBoundary params
          (integrate params snowflake (readLocals snowflake)))).

(** The write-back: only [position] and [velocity] are assigned. *)
Definition writeBack (snowflake : Snowflake F) (l : Locals F)
    : Snowflake F :=
  mkSnowflake (d_vec3f (posX l) (posY l) (posZ l))
              (d_vec3f (velX l) (velY l) (velZ l))
              (size snowflake) (phase snowflake)
              (alpha snowflake) (rotation snowflake).

Definition stepSnowflake (params : SimParams F) (idx : N)
    (snowflake : Snowflake F) : Snowflake F :=
  writeBack snowflake (stepLocals params idx snowflake).

(** One invocation of the shader, with global invocation id [gid], on the
    storage buffer [snowflakes].  The buffer type [SnowflakeArray] has
    [CONFIG.SNOWFLAKE_COUNT] elements and the driver passes the same
    constant as [snowflakeCount], so an index that passes the range check
    is inside the buffer; for a shorter buffer the access is out of bounds
    and the model leaves the buffer as it is. *)
Definition updateSnowflakesFn (params : SimParams F) (gid : N)
    (snowflakes : list (Snowflake F)) : list (Snowflake F) :=
  let idx := gid in
  if (snowflakeCount params <=? idx)%N then snowflakes
  else
    match snowflakes !! N.to_nat idx with
    | Some snowflake =>
        <[N.to_nat idx := stepSnowflake params idx snowflake]> snowflakes
    | None => snowflakes
    end.

(** Invocations executed one after the other in the order [gids]. *)
Definition runInvocations (params : SimParams F) (gids : list N)
    (snowflakes : list (Snowflake F)) : list (Snowflake F) :=
  foldl (fun buf gid => updateSnowflakesFn params gid buf) snowflakes gids.

(** The invocation ids of [dispatchWorkgroups(workgroupCount)]. *)
Definition invocationIds (workgroupCount : N) : list N :=
  map N.of_nat (seq 0 (N.to_nat (workgroupCount * WORKGROUP_SIZE))).

Definition dispatchWorkgroups (params : SimParams F) (workgroupCount : N)
    (snowflakes : list (Snowflake F)) : list (Snowflake F) :=
  runInvocations params (invocationIds workgroupCount) snowflakes.

(** [Math.ceil(CONFIG.SNOWFLAKE_COUNT / CONFIG.WORKGROUP_SIZE)]. *)
Definition workgroupCountFor (count : N) : N :=
  ((count + WORKGROUP_SIZE - 1) / WORKGROUP_SIZE)%N.

(** Frames of the render loop: each writes its [SimParams] and dispatches. *)
Definition runFrames (frames : list (SimParams F))
    (snowflakes : list (Snowflake F)) : list (Snowflake F) :=
  foldl (fun buf params =>
           dispatchWorkgroups params
             (workgroupCountFor (snowflakeCount params)) buf)
        snowflakes frames.

End Shader.

(** ** Interpretation over the real numbers

    Exact arithmetic: no rounding, no NaN, no infinity.  [sqrt] of a
    negative number and a quotient by 0 are 0 here, where [f32] gives NaN or
    an infinity; the statements below keep to arguments for which this does
    not matter (square roots of sums of squares or of quantities shown
    non-negative, quotients by a distance that is positive). *)

Definition Rltb (a b : R) : bool := if Rlt_dec a b then true else false.

(** Rounding toward zero. *)
Definition Rtrunc (v : R) : Z :=
  if Rle_dec 0 v then Int_part v else (- Int_part (- v))%Z.

(** The range of [i32]; a conversion from [f32] saturates. *)
Definition saturate_i32 (k : Z) : Z :=
  Z.max (-2147483648) (Z.min 2147483647 k).

#[export] Instance R_scalar : Scalar R := {|
  fadd := Rplus;
  fsub := Rminus;
  fmul := Rmult;
  fdiv := Rdiv;
  fsqrt := sqrt;
  fsin := sin;
  fcos := cos;
  fabs := Rabs;
  fltb := Rltb;
  lit := Q2R;
  f32_of_u32 := fun n => IZR (Z.of_N n);
  f32_of_i32 := IZR;
  i32_of_f32 := fun v => saturate_i32 (Rtrunc v);
|}.

(** ** Interpretation as IEEE-754 binary32 *)

Definition b32_of_Z (k : Z) : spec_float := binary_normalize 24 128 k 0 false.

(** A literal is a JavaScript number (binary64) rounded to [f32]. *)
Definition b64_of_Q (q : Q) : spec_float :=
  SFdiv 53 1024 (binary_normalize 53 1024 (Qnum q) 0 false)
                (binary_normalize 53 1024 (Zpos (Qden q)) 0 false).

Definition b32_round (v : spec_float) : spec_float :=
  match v with
  | S754_finite s m e => binary_normalize 24 128 (cond_Zopp s (Zpos m)) e s
  | _ => v
  end.

Definition b32_of_Q (q : Q) : spec_float := b32_round (b64_of_Q q).

(** [i32(v)]: toward zero, saturating; a NaN gives 0. *)
Definition i32_of_b32 (v : spec_float) : Z :=
  match v with
  | S754_zero _ => 0
  | S754_nan => 0
  | S754_infinity s => if s then (-2147483648) else 2147483647
  | S754_finite s m e =>
      let mag := match e with
                 | Zneg k => Z.shiftr (Zpos m) (Zpos k)
                 | _ => Z.shiftl (Zpos m) e
                 end in
      saturate_i32 (cond_Zopp s mag)
  end%Z.

Definition F32 (sin32 cos32 : spec_float -> spec_float)
    : Scalar spec_float := {|
  fadd := SFadd 24 128;
  fsub := SFsub 24 128;
  fmul := SFmul 24 128;
  fdiv := SFdiv 24 128;
  fsqrt := SFsqrt 24 128;
  fsin := sin32;
  fcos := cos32;
  fabs := SFabs;
  fltb := SFltb;
  lit := b32_of_Q;
  f32_of_u32 := fun n => b32_of_Z (Z.of_N n);
  f32_of_i32 := b32_of_Z;
  i32_of_f32 := i32_of_b32;
|}.

(** ** Vocabulary of the statements over the real numbers *)

Local Open Scope R_scope.

Definition dot (a b : vec3f R) : R :=
  vec_x a * vec_x b + vec_y a * vec_y b + vec_z a * vec_z b.

Definition scale (k : R) (a : vec3f R) : vec3f R :=
  d_vec3f (k * vec_x a) (k * vec_y a) (k * vec_z a).

Definition vadd (a b : vec3f R) : vec3f R :=
  d_vec3f (vec_x a + vec_x b) (vec_y a + vec_y b) (vec_z a + vec_z b).

Definition vsub (a b : vec3f R) : vec3f R :=
  d_vec3f (vec_x a - vec_x b) (vec_y a - vec_y b) (vec_z a - vec_z b).

Definition positionOf (l : Locals R) : vec3f R :=
  d_vec3f (posX l) (posY l) (posZ l).

Definition velocityOf (l : Locals R) : vec3f R :=
  d_vec3f (velX l) (velY l) (velZ l).

(** [|velocity|], the [speed] and [totalSpeed] of the shader. *)
Definition speedOf (l : Locals R) : R :=
  sqrt (velX l * velX l + velY l * velY l + velZ l * velZ l).

Definition domeCenter (params : SimParams R) : vec3f R :=
  d_vec3f 0 (domeCenterY params) 0.

(** [dist] of the shader: the distance from the dome centre. *)
Definition distanceFromCenter (params : SimParams R) (l : Locals R) : R :=
  sqrt (posX l * posX l
        + (posY l - domeCenterY params) * (posY l - domeCenterY params)
        + posZ l * posZ l).

(** [maxRadius] of the shader. *)
Definition collisionRadius (params : SimParams R) : R :=
  domeRadius params * 0.95.

(** [(nx, ny, nz)] of the shader. *)
Definition outwardNormal (params : SimParams R) (l : Locals R) : vec3f R :=
  d_vec3f (posX l / distanceFromCenter params l)
          ((posY l - domeCenterY params) / distanceFromCenter params l)
          (posZ l / distanceFromCenter params l).

Definition normalPart (v n : vec3f R) : vec3f R := scale (dot v n) n.

Definition tangentialPart (v n : vec3f R) : vec3f R :=
  vsub v (normalPart v n).

(** The respawn cap: height above the centre for the fraction [h], and
    horizontal radius for the fractions [u] and [h]. *)
Definition capHeight (params : SimParams R) (h : R) : R :=
  domeRadius params * (0.5 + h * 0.35).

Definition capRadius (params : SimParams R) (u h : R) : R :=
  sqrt u * (sqrt (domeRadius params * domeRadius params * 0.9
                  - capHeight params h * capHeight params h) * 0.85).

(** What the driver has to uphold: a dome of non-negative radius whose
    floor is not above its centre, a clock that starts at 0, and a
    particle count within the range of [i32]. *)
Definition validScene (params : SimParams R) : Prop :=
  0 <= domeRadius params /\ floorY params <= domeCenterY params
  /\ 0 <= time params /\ (snowflakeCount params <= 2147483648)%N.

Definition containedLocals (params : SimParams R) (l : Locals R) : Prop :=
  distanceFromCenter params l <= collisionRadius params
  /\ floorY params <= posY l.

Definition contained (params : SimParams R) (s : Snowflake R) : Prop :=
  containedLocals params (readLocals s).

(** ** Concrete scenes used to exercise the statements *)

(** A unit dome centred at the origin with its floor through the centre,
    restitution 1/2, one snowflake, at time 0 with a zero time step. *)
Definition unitDome : SimParams R :=
  mkSimParams 0 0 1 0 0 0 0 0 (1 / 2) 0 0 0 1.

(** Outside the dome on the x axis, moving outward and sideways. *)
Definition outwardLocals : Locals R := mkLocals 4 0 0 1 1 0.

(** The same place, moving inward and sideways. *)
Definition inwardLocals : Locals R := mkLocals 4 0 0 (- 1) 1 0.

(** At rest below the floor. *)
Definition sunkLocals : Locals R := mkLocals 0 (- (1 / 2)) 0 0 0 0.

Definition movingLocals : Locals R := mkLocals 0 0 0 3 0 4.

Definition restingSnowflake : Snowflake R :=
  mkSnowflake (d_vec3f 0 0 0) (d_vec3f 0 0 0) 1 0 1 0.

Definition outsideSnowflake : Snowflake R :=
  mkSnowflake (d_vec3f 2 0 0) (d_vec3f 0 0 0) 1 0 1 0.


Definition unitDome32 : SimParams spec_float :=
  mkSimParams (b32_of_Q 0) (b32_of_Q 0) (b32_of_Q 1) (b32_of_Q 0)
              (b32_of_Q 0) (b32_of_Q 0) (b32_of_Q 0) (b32_of_Q 0)
              (b32_of_Q 0.5) (b32_of_Q 0) (b32_of_Q 0) (b32_of_Q 0) 1.

Definition outwardLocals32 : Locals spec_float :=
  mkLocals (b32_of_Q 4) (b32_of_Q 0) (b32_of_Q 0)
           (b32_of_Q 1) (b32_of_Q 1) (b32_of_Q 0).


(** The noise input [(1e12, 0, 0)]. *)
Definition farPoint32 : vec3f spec_float :=
  d_vec3f (b32_of_Q 1000000000000) (b32_of_Q 0) (b32_of_Q 0).


(** A scene with drag only: [dragCoeff = 2], [deltaTime = 0.1], no gravity,
    no turbulence, no shake. *)
Definition dragScene : SimParams R :=
  mkSimParams 0 (1 / 10) 1 0 0 0 2 0 (1 / 2) 0 0 0 1.

Definition fastLocals : Locals R := mkLocals 0 0 0 9 0 12.

(** A unit dome whose floor, at height 1/2, is above its centre, and a
    snowflake inside the collision sphere that slides along the x axis. *)
Definition highFloorDome : SimParams R :=
  mkSimParams 0 0 1 0 (1 / 2) 0 0 0 (1 / 2) 0 0 0 1.

Definition slidingSnowflake : Snowflake R :=
  mkSnowflake (d_vec3f (9 / 10) 0 0) (d_vec3f 1 0 0) 1 0 1 0.

(** The unit dome a millisecond after the start, with two snowflakes. *)
Definition settlingDome : SimParams R :=
  mkSimParams (1 / 1000) 0 1 0 0 0 0 0 (1 / 2) 0 0 0 2.

(** The scene of [config.ts] in binary32, and a particle at the dome centre
    with the finite velocity [(3e19, 0, 0)]. *)
Definition configScene32 : SimParams spec_float :=
  mkSimParams (b32_of_Q 0) (b32_of_Q 0.016) (b32_of_Q 0.7) (b32_of_Q 0.35)
              (b32_of_Q (-0.15)) (b32_of_Q 0.15) (b32_of_Q 2.0)
              (b32_of_Q 0.4) (b32_of_Q 0.1) (b32_of_Q 0) (b32_of_Q 0)
              (b32_of_Q 0) 3000.

Definition fastLocals32 : Locals spec_float :=
  mkLocals (b32_of_Q 0) (b32_of_Q 0.35) (b32_of_Q 0)
           (b32_of_Q 30000000000000000000) (b32_of_Q 0) (b32_of_Q 0).

(** The noise input [(6e6, 6e6, 6e6)]. *)
Definition midPoint32 : vec3f spec_float :=
  d_vec3f (b32_of_Q 6000000) (b32_of_Q 6000000) (b32_of_Q 6000000).


(** ** The render loop ([index.ts]) and its configuration ([config.ts])

    JavaScript numbers are read as real numbers. *)

Module CONFIG.
Definition DOME_RADIUS : R := 0.7.
Definition DOME_SEGMENTS : nat := 32.
Definition DOME_RINGS : nat := 24.
Definition DOME_CENTER_Y : R := 0.35.
Definition CAMERA_ROTATION_SPEED : R := 0.1.
Definition SNOWFLAKE_COUNT : N := 3000.
Definition SNOWFLAKE_SIZE_MIN : R := 0.008.
Definition SNOWFLAKE_SIZE_MAX : R := 0.025.
Definition GRAVITY : R := 0.15.
Definition DRAG_COEFFICIENT : R := 2.0.
Definition TURBULENCE : R := 0.4.
Definition RESTITUTION : R := 0.1.
Definition FLOOR_Y : R := - 0.15.
End CONFIG.

(** The record written to [simParamsBuffer] in each frame. *)
Definition frameParams (totalTime deltaTime : R) : SimParams R :=
  mkSimParams totalTime deltaTime
    CONFIG.DOME_RADIUS CONFIG.DOME_CENTER_Y CONFIG.FLOOR_Y
    CONFIG.GRAVITY CONFIG.DRAG_COEFFICIENT CONFIG.TURBULENCE
    CONFIG.RESTITUTION 0 0 0 CONFIG.SNOWFLAKE_COUNT.

(** The variables of [main] that [render] updates. *)
Record RenderState := mkRenderState {
  lastTime : R;
  totalTime : R;
  cameraAngle : R;
  snowflakeBuffer : list (Snowflake R);
}.

(** One call of [render], with [now] the reading of [performance.now()],
    up to the update of the camera angle (the drawing follows). *)
Definition render (now : R) (st : RenderState) : RenderState :=
  let deltaTime := Rmin ((now - lastTime st) / 1000) 0.1 in
  let totalTime' := totalTime st + deltaTime in
  let workgroupCount := workgroupCountFor CONFIG.SNOWFLAKE_COUNT in
  let buffer :=
    dispatchWorkgroups (frameParams totalTime' deltaTime) workgroupCount
      (snowflakeBuffer st) in
  let cameraAngle' :=
    cameraAngle st + CONFIG.CAMERA_ROTATION_SPEED * deltaTime in
  mkRenderState now totalTime' cameraAngle' buffer.

(** The frames of the animation, for the successive clock readings. *)
Definition renderLoop (nows : list R) (st : RenderState) : RenderState :=
  foldl (fun st now => render now st) st nows.

(** A clock that does not run backwards, read after [t]. *)
Fixpoint clockFrom (t : R) (nows : list R) : Prop :=
  match nows with
  | [] => True
  | now :: rest => t <= now /\ clockFrom now rest
  end.

(** [generateInitialSnowflakes] of [index.ts]: one snowflake from ten
    draws of [Math.random], in the order of the calls; [cbrt] stands for
    [Math.cbrt]. *)
Definition initialSnowflake (cbrt : R -> R) (random : nat -> R)
    : Snowflake R :=
  let theta := random 0%nat * PI * 2 in
  let cosTheta := random 1%nat * 2 - 1 in
  let sinTheta := sqrt (1 - cosTheta * cosTheta) in
  let r := cbrt (random 2%nat) * CONFIG.DOME_RADIUS * 0.85 in
  let x := sinTheta * cos theta * r in
  let y := cosTheta * r + CONFIG.DOME_CENTER_Y in
  let z := sinTheta * sin theta * r in
  let vx := (random 3%nat - 0.5) * 0.1 in
  let vy := (- CONFIG.GRAVITY) * 0.1 * (0.5 + random 4%nat * 0.5) in
  let vz := (random 5%nat - 0.5) * 0.1 in
  mkSnowflake (d_vec3f x y z) (d_vec3f vx vy vz)
    (CONFIG.SNOWFLAKE_SIZE_MIN
     + random 6%nat * (CONFIG.SNOWFLAKE_SIZE_MAX - CONFIG.SNOWFLAKE_SIZE_MIN))
    (random 7%nat * PI * 2)
    (0.6 + random 8%nat * 0.4)
    (random 9%nat * PI * 2).

Definition generateInitialSnowflakes (cbrt : R -> R) (random : nat -> R)
    : list (Snowflake R) :=
  map (fun i => initialSnowflake cbrt (fun k => random (10 * i + k)%nat))
      (seq 0 (N.to_nat CONFIG.SNOWFLAKE_COUNT)).

(** The state in which the animation starts, the clock reading [t0]. *)
Definition initialRenderState (cbrt : R -> R) (random : nat -> R) (t0 : R)
    : RenderState :=
  mkRenderState t0 0 0 (generateInitialSnowflakes cbrt random).


(** What every initial snowflake satisfies: inside the sphere of radius
    [0.7 * 0.85] around the dome centre, falling slowly, with its render
    attributes in their ranges. *)
Definition wellSeeded (s : Snowflake R) : Prop :=
  distanceFromCenter (frameParams 0 0) (readLocals s)
    <= CONFIG.DOME_RADIUS * 0.85
  /\ - 0.015 <= vec_y (velocity s) <= - 0.0075
  /\ Rabs (vec_x (velocity s)) <= 0.05 /\ Rabs (vec_z (velocity s)) <= 0.05
  /\ CONFIG.SNOWFLAKE_SIZE_MIN <= size s < CONFIG.SNOWFLAKE_SIZE_MAX
  /\ 0 <= phase s < 2 * PI
  /\ 0.6 <= alpha s < 1.


(** ** The other shader functions of [common.ts]

    They and the shaders below use more builtins of [typegpu/std]. *)

Class Builtins (F : Type) := {
  fmax : F -> F -> F;
  fmin : F -> F -> F;
  fpow : F -> F -> F;
  fexp : F -> F;
  (** [smoothstep(low, high, x)]. *)
  fsmoothstep : F -> F -> F -> F;
  ffract : F -> F;
  (** [fleb a b] is the test [a <= b]. *)
  fleb : F -> F -> bool;
}.

Record vec2f (F : Type) := d_vec2f { vec2_x : F; vec2_y : F }.
Arguments d_vec2f {F} _ _.
Arguments vec2_x {F} _.
Arguments vec2_y {F} _.

Record vec4f (F : Type) := d_vec4f {
  vec4_x : F; vec4_y : F; vec4_z : F; vec4_w : F;
}.
Arguments d_vec4f {F} _ _ _ _.
Arguments vec4_x {F} _.
Arguments vec4_y {F} _.
Arguments vec4_z {F} _.
Arguments vec4_w {F} _.

Section Common.
Context {F : Type} `{Scalar F} `{Builtins F}.
Local Open Scope f32_scope.

(** The builtin [dot] on [vec3f]. *)
Definition dot3 (a b : vec3f F) : F :=
  vec_x a * vec_x b + vec_y a * vec_y b + vec_z a * vec_z b.

Definition fresnelFn (viewDir normal : vec3f F) (ior : F) : F :=
  let cosTheta := fmax (dot3 viewDir normal) (lit 0.0) in
  let r0Base := (lit 1.0 - ior) / (lit 1.0 + ior) in
  let r0 := r0Base * r0Base in
  let fresnel :=
    r0 + (lit 1.0 - r0) * fpow (lit 1.0 - cosTheta) (lit 5.0) in
  fresnel.

Definition doubleLayerFresnelFn (viewDir normal : vec3f F) (ior : F) : F :=
  let cosTheta := fmax (dot3 viewDir normal) (lit 0.0) in
  let r0Base := (lit 1.0 - ior) / (lit 1.0 + ior) in
  let r0 := r0Base * r0Base in
  let fresnelOuter :=
    r0 + (lit 1.0 - r0) * fpow (lit 1.0 - cosTheta) (lit 5.0) in
  let innerReflect := fpow (lit 1.0 - cosTheta) (lit 3.0) * lit 0.15 in
  fresnelOuter + innerReflect.

(** The negation [-dir.z] is written [0 - dir.z]. *)
Definition sampleEnvironmentFn (dir : vec3f F) : vec3f F :=
  let t := vec_y dir * lit 0.5 + lit 0.5 in
  let ceilingR := lit 0.15 in
  let ceilingG := lit 0.12 in
  let ceilingB := lit 0.1 in
  let tableR := lit 0.4 in
  let tableG := lit 0.25 in
  let tableB := lit 0.1 in
  let windowDirX := lit 0.6 in
  let windowDirY := lit 0.5 in
  let windowDirZ := lit 0.6 in
  let windowDot :=
    fmax (vec_x dir * windowDirX + vec_y dir * windowDirY
          + vec_z dir * windowDirZ)
         (lit 0.0) in
  let windowGlow := fpow windowDot (lit 8.0) * lit 0.6 in
  let windowHighlight := fpow windowDot (lit 64.0) * lit 1.5 in
  let lampDot := fmax (vec_y dir) (lit 0.0) in
  let lampGlow := fpow lampDot (lit 4.0) * lit 0.3 in
  let wallDot := fmax (lit 0 - vec_z dir) (lit 0.0) in
  let wallReflect := wallDot * lit 0.1 in
  let r0 := tableR + (ceilingR - tableR) * t in
  let g0 := tableG + (ceilingG - tableG) * t in
  let b0 := tableB + (ceilingB - tableB) * t in
  let r1 := r0 + windowGlow * lit 0.7 + windowHighlight in
  let g1 := g0 + windowGlow * lit 0.85 + windowHighlight in
  let b1 := b0 + windowGlow * lit 1.0 + windowHighlight in
  let r2 := r1 + lampGlow * lit 1.0 in
  let g2 := g1 + lampGlow * lit 0.8 in
  let b2 := b1 + lampGlow * lit 0.5 in
  let r3 := r2 + wallReflect in
  let g3 := g2 + wallReflect * lit 0.9 in
  let b3 := b2 + wallReflect * lit 0.8 in
  d_vec3f r3 g3 b3.

Definition rimLightFn (normal viewDir rimColor : vec3f F) (rimPower : F)
    : vec3f F :=
  let rim := lit 1.0 - fmax (dot3 normal viewDir) (lit 0.0) in
  let rimFactor := fpow rim rimPower in
  d_vec3f (vec_x rimColor * rimFactor)
          (vec_y rimColor * rimFactor)
          (vec_z rimColor * rimFactor).

Definition thinFilmIridescenceFn (cosTheta : F) : vec3f F :=
  let phase := (lit 1.0 - cosTheta) * lit 3.14159 * lit 2.0 in
  let r := lit 0.5 + lit 0.5 * fcos phase in
  let g := lit 0.5 + lit 0.5 * fcos (phase + lit 2.094) in
  let b := lit 0.5 + lit 0.5 * fcos (phase + lit 4.189) in
  d_vec3f (r * lit 0.08) (g * lit 0.08) (b * lit 0.08).

End Common.

(** [pow] over the reals, for a non-negative base; the base 0 gives 0 (the
    exponents of the shaders are positive), and a negative base, for which
    the builtin has no defined result, is given 0 as well. *)
Definition Rpow (b e : R) : R := if Rlt_dec 0 b then Rpower b e else 0.

(** [smoothstep] as the shading language defines it. *)
Definition Rsmoothstep (low high x : R) : R :=
  let t := Rmin (Rmax ((x - low) / (high - low)) 0) 1 in
  t * t * (3 - 2 * t).

(** [fract(x) = x - floor(x)]. *)
Definition Rfract (x : R) : R := x - IZR (Int_part x).

Definition Rleb (a b : R) : bool := if Rle_dec a b then true else false.

#[export] Instance R_builtins : Builtins R := {|
  fmax := Rmax;
  fmin := Rmin;
  fpow := Rpow;
  fexp := exp;
  fsmoothstep := Rsmoothstep;
  ffract := Rfract;
  fleb := Rleb;
|}.

(** In binary32, with [pow] a parameter like [sin] and [cos]. *)
Definition b32_max (a b : spec_float) : spec_float :=
  if SFltb a b then b else a.

Definition b32_min (a b : spec_float) : spec_float :=
  if SFltb b a then b else a.

Definition b32_floor (v : spec_float) : spec_float :=
  match v with
  | S754_finite s m (Zneg k) =>
      b32_of_Z (Z.shiftr (cond_Zopp s (Zpos m)) (Zpos k))
  | _ => v
  end.

Definition b32_smoothstep (low high x : spec_float) : spec_float :=
  let t := b32_min (b32_max (SFdiv 24 128 (SFsub 24 128 x low)
                                          (SFsub 24 128 high low))
                            (b32_of_Z 0))
                   (b32_of_Z 1) in
  SFmul 24 128 (SFmul 24 128 t t)
    (SFsub 24 128 (b32_of_Z 3) (SFmul 24 128 (b32_of_Z 2) t)).

Definition F32_builtins (pow32 : spec_float -> spec_float -> spec_float)
    (exp32 : spec_float -> spec_float) : Builtins spec_float := {|
  fmax := b32_max;
  fmin := b32_min;
  fpow := pow32;
  fexp := exp32;
  fsmoothstep := b32_smoothstep;
  ffract := fun v => SFsub 24 128 v (b32_floor v);
  fleb := SFleb;
|}.

(** The reflectance at normal incidence for the index of refraction [ior]. *)
Definition schlickR0 (ior : R) : R :=
  (1 - ior) / (1 + ior) * ((1 - ior) / (1 + ior)).

Definition zAxis : vec3f R := d_vec3f 0 0 1.
Definition xAxis : vec3f R := d_vec3f 1 0 0.


(** ** The dome mesh ([geometry/dome.ts])

    JavaScript numbers are read as real numbers; the loop counters and the
    numbers of segments and rings are natural numbers. *)

Record DomeVertex := mkDomeVertex {
  vertexPosition : vec3f R;
  vertexNormal : vec3f R;
}.

(** The local function [getVertex]. *)
Definition getVertex (radius : R) (segments rings : nat) (centerY : R)
    (segIdx ringIdx : nat) : DomeVertex :=
  let theta := INR segIdx / INR segments * PI * 2 in
  let phi := INR ringIdx / INR rings * PI - PI / 2 in
  let cosPhi := cos phi in
  let sinPhi := sin phi in
  let cosTheta := cos theta in
  let sinTheta := sin theta in
  let x := cosTheta * cosPhi * radius in
  let y := sinPhi * radius + centerY in
  let z := sinTheta * cosPhi * radius in
  let nx := cosTheta * cosPhi in
  let ny := sinPhi in
  let nz := sinTheta * cosPhi in
  mkDomeVertex (d_vec3f x y z) (d_vec3f nx ny nz).

(** The six vertices pushed by one iteration of the inner loop. *)
Definition sphereCell (radius : R) (segments rings : nat) (centerY : R)
    (ring seg : nat) : list DomeVertex :=
  let i0 := seg in
  let i1 := ((seg + 1) mod segments)%nat in
  let j0 := ring in
  let j1 := (ring + 1)%nat in
  let v00 := getVertex radius segments rings centerY i0 j0 in
  let v10 := getVertex radius segments rings centerY i1 j0 in
  let v01 := getVertex radius segments rings centerY i0 j1 in
  let v11 := getVertex radius segments rings centerY i1 j1 in
  [v00; v10; v01; v10; v11; v01].

Definition generateSphereVertices (radius : R) (segments rings : nat)
    (centerY : R) : list DomeVertex :=
  flat_map (fun ring =>
              flat_map (fun seg =>
                          sphereCell radius segments rings centerY ring seg)
                       (seq 0 segments))
           (seq 0 rings).

Definition generateDomeVertices : list DomeVertex :=
  generateSphereVertices CONFIG.DOME_RADIUS CONFIG.DOME_SEGMENTS
    CONFIG.DOME_RINGS CONFIG.DOME_CENTER_Y.

(** A vertex of a sphere of the given radius and centre height: a unit
    normal, and the position at the radius along it. *)
Definition onSphere (radius centerY : R) (v : DomeVertex) : Prop :=
  dot (vertexNormal v) (vertexNormal v) = 1
  /\ vertexPosition v
     = vadd (d_vec3f 0 centerY 0) (scale radius (vertexNormal v)).

(** The distance of a mesh vertex from the dome centre. *)
Definition vertexDistance (centerY : R) (v : DomeVertex) : R :=
  sqrt (vec_x (vertexPosition v) * vec_x (vertexPosition v)
        + (vec_y (vertexPosition v) - centerY)
          * (vec_y (vertexPosition v) - centerY)
        + vec_z (vertexPosition v) * vec_z (vertexPosition v)).


(** ** The snowflake sprite ([shaders/snowflake.ts]) *)

Section Sprite.
Context {F : Type} `{Scalar F} `{Builtins F}.
Local Open Scope f32_scope.

(** [snowflakeFragmentFn]; [None] is [discard()]. *)
Definition snowflakeFragmentFn (uv : vec2f F) (alpha : F)
    : option (vec4f F) :=
  let cx := vec2_x uv - lit 0.5 in
  let cy := vec2_y uv - lit 0.5 in
  let dist := fsqrt (cx * cx + cy * cy) in
  if dist >? lit 0.5 then None
  else
    let edge := lit 1.0 - fsmoothstep (lit 0.3) (lit 0.5) dist in
    let glow := fexp (lit 0.0 - dist * lit 4.0) in
    let colorR := lit 0.95 + glow * lit 0.05 in
    let colorG := lit 0.97 + glow * lit 0.03 in
    let colorB := lit 1.0 in
    let finalAlpha := alpha * edge * (lit 0.7 + glow * lit 0.3) in
    Some (d_vec4f colorR colorG colorB finalAlpha).

End Sprite.

(** The distance of a texture coordinate from the centre of the quad. *)
Definition spriteRadius (uv : vec2f R) : R :=
  sqrt ((vec2_x uv - 0.5) * (vec2_x uv - 0.5)
        + (vec2_y uv - 0.5) * (vec2_y uv - 0.5)).


(** ** The particle demo: the compute shader [updateParticlesFn] *)

Module Particles.

Record Particle (F : Type) := mkParticle {
  position : vec3f F;
  velocity : vec3f F;
  life : F;
}.
Arguments mkParticle {F} _ _ _.
Arguments position {F} _.
Arguments velocity {F} _.
Arguments life {F} _.

Record Params (F : Type) := mkParams {
  deltaTime : F;
  gravity : vec3f F;
  time : F;
}.
Arguments mkParams {F} _ _ _.
Arguments deltaTime {F} _.
Arguments gravity {F} _.
Arguments time {F} _.

Definition PARTICLE_COUNT : N := 1000.

Section Shader.
Context {F : Type} `{Scalar F} `{Builtins F}.
Local Open Scope f32_scope.

(** The builtins [dot] on [vec2f], and [add] and [mul] on a [vec3f] and a
    scalar. *)
Definition dot2 (a b : vec2f F) : F :=
  vec2_x a * vec2_x b + vec2_y a * vec2_y b.

Definition add3 (a b : vec3f F) : vec3f F :=
  d_vec3f (vec_x a + vec_x b) (vec_y a + vec_y b) (vec_z a + vec_z b).

Definition mul3 (a : vec3f F) (k : F) : vec3f F :=
  d_vec3f (vec_x a * k) (vec_y a * k) (vec_z a * k).

Definition random (seed : vec2f F) : F :=
  ffract (fsin (dot2 seed (d_vec2f (lit 12.9898) (lit 78.233)))
          * lit 43758.5453).

(** The body of the shader past the range check, for invocation [idx]. *)
Definition updateParticle (params : Params F) (idx : N)
    (particle : Particle F) : Particle F :=
  if fleb (life particle) (lit 0) then
    let idxF := f32_of_u32 idx in
    let seedBase := idxF + time params * lit 1000 in
    let r1 := random (d_vec2f seedBase (seedBase * lit 0.1)) in
    let r2 := random (d_vec2f (seedBase * lit 0.2) (seedBase * lit 0.3)) in
    let r3 := random (d_vec2f (seedBase * lit 0.4) (seedBase * lit 0.5)) in
    let r4 := random (d_vec2f (seedBase * lit 0.6) (seedBase * lit 0.7)) in
    let r5 := random (d_vec2f (seedBase * lit 0.8) (seedBase * lit 0.9)) in
    let r6 := random (d_vec2f (seedBase * lit 1.1) (seedBase * lit 1.2)) in
    mkParticle
      (d_vec3f (r1 * lit 10 - lit 5) (r2 * lit 10 - lit 5)
               (r3 * lit 10 - lit 5))
      (d_vec3f (r4 - lit 0.5) (r5 - lit 0.5) (r6 - lit 0.5))
      (lit 1.0)
  else
    let newVelocity :=
      add3 (velocity particle) (mul3 (gravity params) (deltaTime params)) in
    let newPosition :=
      add3 (position particle) (mul3 newVelocity (deltaTime params)) in
    let newLife := life particle - deltaTime params in
    mkParticle newPosition newVelocity newLife.

Definition updateParticlesFn (params : Params F) (gid : N)
    (particles : list (Particle F)) : list (Particle F) :=
  let idx := gid in
  if (PARTICLE_COUNT <=? idx)%N then particles
  else
    match particles !! N.to_nat idx with
    | Some particle =>
        <[N.to_nat idx := updateParticle params idx particle]> particles
    | None => particles
    end.

(** The successive frames of one particle. *)
Definition particleFrames (frames : list (Params F)) (idx : N)
    (particle : Particle F) : Particle F :=
  foldl (fun p params => updateParticle params idx p) particle frames.

End Shader.

(** Inside the cube in which particles are created, with a velocity inside
    the box of initial velocities. *)
Definition inSpawnBox (p : Particle R) : Prop :=
  (- 5 <= vec_x (position p) < 5 /\ - 5 <= vec_y (position p) < 5
   /\ - 5 <= vec_z (position p) < 5)
  /\ (- 0.5 <= vec_x (velocity p) < 0.5 /\ - 0.5 <= vec_y (velocity p) < 0.5
      /\ - 0.5 <= vec_z (velocity p) < 0.5).


(** A frame of 0.1 s under the gravity of the demo, and a particle with
    0.15 s left. *)
Definition demoFrame : Params R :=
  mkParams (1 / 10) (d_vec3f 0 (- 9.81) 0) 0.

Definition fadingParticle : Particle R :=
  mkParticle (d_vec3f 0 0 0) (d_vec3f 0 0 0) (15 / 100).

End Particles.

(** * Properties that hold for every interpretation of [f32] *)

Section Dispatch.
Context {F : Type} `{Scalar F}.
Implicit Types (params : SimParams F) (snowflakes : list (Snowflake F)).

Lemma updateSnowflakesFn_lookup params gid snowflakes i :
  updateSnowflakesFn params gid snowflakes !! i =
  if decide (i = N.to_nat gid /\ (gid < snowflakeCount params)%N)
  then stepSnowflake params gid <$> snowflakes !! i
  else snowflakes !! i.
Proof.
  unfold updateSnowflakesFn.
  destruct (N.leb_spec (snowflakeCount params) gid) as [Hge|Hlt].
  - rewrite decide_False by lia. reflexivity.
  - destruct (decide (i = N.to_nat gid)) as [->|Hne].
    + rewrite decide_True by auto.
      destruct (snowflakes !! N.to_nat gid) as [s|] eqn:Hs.
      * rewrite list_lookup_insert_eq by (eapply lookup_lt_Some; eauto).
        reflexivity.
      * rewrite Hs. reflexivity.
    + rewrite decide_False by tauto.
      destruct (snowflakes !! N.to_nat gid); [|reflexivity].
      apply list_lookup_insert_ne. congruence.
Qed.

Lemma updateSnowflakesFn_out_of_range params gid snowflakes :
  (snowflakeCount params <= gid)%N ->
  updateSnowflakesFn params gid snowflakes = snowflakes.
Proof.
  intros Hge. unfold updateSnowflakesFn.
  destruct (N.leb_spec (snowflakeCount params) gid); [reflexivity | lia].
Qed.

Lemma updateSnowflakesFn_length params gid snowflakes :
  length (updateSnowflakesFn params gid snowflakes) = length snowflakes.
Proof.
  unfold updateSnowflakesFn.
  destruct (snowflakeCount params <=? gid)%N; [reflexivity|].
  destruct (snowflakes !! N.to_nat gid); [apply length_insert | reflexivity].
Qed.

(** Two invocations commute: they write disjoint slots, or are the same. *)
Lemma updateSnowflakesFn_comm params g1 g2 snowflakes :
  updateSnowflakesFn params g1 (updateSnowflakesFn params g2 snowflakes) =
  updateSnowflakesFn params g2 (updateSnowflakesFn params g1 snowflakes).
Proof.
  apply list_eq. intros i.
  rewrite !updateSnowflakesFn_lookup.
  repeat case_decide; destruct_and?; try reflexivity.
  assert (g1 = g2) as -> by (apply N2Nat.inj; congruence).
  reflexivity.
Qed.

Lemma runInvocations_perm params gids gids' snowflakes :
  gids ≡ₚ gids' ->
  runInvocations params gids snowflakes
  = runInvocations params gids' snowflakes.
Proof.
  unfold runInvocations. intros Hp. revert snowflakes.
  induction Hp as [|g l l' _ IH|g1 g2 l|l1 l2 l3 _ IH1 _ IH2];
    intros buf; simpl.
  - reflexivity.
  - apply IH.
  - now rewrite updateSnowflakesFn_comm.
  - now rewrite IH1.
Qed.

Lemma runInvocations_local params gids a b i :
  a !! i = b !! i ->
  runInvocations params gids a !! i = runInvocations params gids b !! i.
Proof.
  unfold runInvocations. revert a b.
  induction gids as [|g gids IH]; intros a b Hab; simpl; [exact Hab|].
  apply IH. rewrite !updateSnowflakesFn_lookup, Hab. reflexivity.
Qed.

Lemma runInvocations_lookup params gids snowflakes i :
  NoDup gids ->
  runInvocations params gids snowflakes !! i =
  if decide (N.of_nat i ∈ gids /\ (N.of_nat i < snowflakeCount params)%N)
  then stepSnowflake params (N.of_nat i) <$> snowflakes !! i
  else snowflakes !! i.
Proof.
  unfold runInvocations. intros Hnd. revert snowflakes.
  induction Hnd as [|g gids Hnotin Hnd IH]; intros buf; cbn [foldl].
  - rewrite decide_False; [reflexivity|]. intros [Hin _]. inversion Hin.
  - rewrite IH, updateSnowflakesFn_lookup.
    destruct (decide (i = N.to_nat g)) as [->|Hne].
    + rewrite N2Nat.id.
      rewrite (decide_False (P := g ∈ gids /\ _)) by tauto.
      destruct (decide (g < snowflakeCount params)%N).
      * rewrite !decide_True; auto. split; auto. left.
      * rewrite !decide_False; tauto.
    + assert (N.of_nat i <> g) by (intros <-; rewrite Nat2N.id in Hne; auto).
      rewrite (decide_False (P := i = N.to_nat g /\ _)) by tauto.
      repeat case_decide; destruct_and?; try reflexivity; exfalso.
      * match goal with H : ~ _ |- _ => apply H end. split; auto. now right.
      * match goal with
        | H : _ ∈ _ :: _ |- _ => apply elem_of_cons in H as [?|?]
        end; tauto.
Qed.

Lemma invocationIds_NoDup workgroupCount : NoDup (invocationIds workgroupCount).
Proof.
  unfold invocationIds. apply (NoDup_fmap_2 N.of_nat), NoDup_seq.
Qed.

Lemma invocationIds_elem workgroupCount (i : nat) :
  N.of_nat i ∈ invocationIds workgroupCount
  <-> (N.of_nat i < workgroupCount * WORKGROUP_SIZE)%N.
Proof.
  unfold invocationIds. rewrite list_elem_of_fmap. split.
  - intros (j & Hj & Hin). apply Nat2N.inj in Hj. subst j.
    apply elem_of_seq in Hin. lia.
  - intros Hlt. exists i. split; [reflexivity|]. apply elem_of_seq. lia.
Qed.

Lemma workgroupCountFor_covers (count : N) :
  (count <= workgroupCountFor count * WORKGROUP_SIZE)%N.
Proof.
  unfold workgroupCountFor, WORKGROUP_SIZE.
  pose proof (N.div_mod (count + 64 - 1) 64) as Hdm.
  pose proof (N.mod_lt (count + 64 - 1) 64). lia.
Qed.

(** The dispatch of the render loop is the per-particle map. *)
Lemma dispatchWorkgroups_lookup params snowflakes (i : nat) :
  (N.of_nat i < snowflakeCount params)%N ->
  dispatchWorkgroups params (workgroupCountFor (snowflakeCount params))
    snowflakes !! i
  = stepSnowflake params (N.of_nat i) <$> snowflakes !! i.
Proof.
  intros Hi. unfold dispatchWorkgroups.
  rewrite runInvocations_lookup by apply invocationIds_NoDup.
  rewrite decide_True; [reflexivity|]. split; [|assumption].
  apply invocationIds_elem.
  pose proof (workgroupCountFor_covers (snowflakeCount params)). lia.
Qed.

(** What one invocation may change in a slot. *)
Lemma updateSnowflakesFn_frame params gid snowflakes i s :
  snowflakes !! i = Some s ->
  exists s', updateSnowflakesFn params gid snowflakes !! i = Some s'
    /\ size s' = size s /\ phase s' = phase s
    /\ alpha s' = alpha s /\ rotation s' = rotation s
    /\ ((snowflakeCount params <= N.of_nat i)%N -> s' = s).
Proof.
  intros Hs. rewrite updateSnowflakesFn_lookup, Hs.
  case_decide as Hd.
  - destruct Hd as [-> Hlt]. eexists. split; [reflexivity|].
    repeat split; try reflexivity. rewrite N2Nat.id. lia.
  - exists s. repeat split; reflexivity.
Qed.

End Dispatch.

Section StageFacts.
Context {F : Type} `{Scalar F}.
Local Open Scope f32_scope.

(** The integration stage, unfolded once. *)
Lemma integrate_unfold (params : SimParams F) (snowflake : Snowflake F)
    (l : Locals F) :
  let acc := totalAcceleration params snowflake l in
  let dt := deltaTime params in
  integrate params snowflake l =
  mkLocals (posX l + (velX l + vec_x acc * dt) * dt)
           (posY l + (velY l + vec_y acc * dt) * dt)
           (posZ l + (velZ l + vec_z acc * dt) * dt)
           (velX l + vec_x acc * dt)
           (velY l + vec_y acc * dt)
           (velZ l + vec_z acc * dt).
Proof. reflexivity. Qed.

Lemma writeBack_fields (snowflake : Snowflake F) (l : Locals F) :
  size (writeBack snowflake l) = size snowflake
  /\ phase (writeBack snowflake l) = phase snowflake
  /\ alpha (writeBack snowflake l) = alpha snowflake
  /\ rotation (writeBack snowflake l) = rotation snowflake.
Proof. repeat split. Qed.


(** C4. The step is a per-particle map.  Slot [i] after running the
    invocations depends on the buffer only through slot [i]: two buffers
    that agree there give the same slot [i], whatever the other slots
    hold and in whatever order the invocations run.  For the dispatch of
    the render loop the slot is the image of its previous content under
    [stepSnowflake params i], a function of the parameters, the index and
    that content only. *)
Theorem per_particle_step (params : SimParams F) (gids gids' : list N)
    (a b : list (Snowflake F)) (i : nat) :
  gids ≡ₚ gids' ->
  a !! i = b !! i ->
  runInvocations params gids a !! i = runInvocations params gids' b !! i
  /\ ((N.of_nat i < snowflakeCount params)%N ->
      dispatchWorkgroups params (workgroupCountFor (snowflakeCount params))
        a !! i
      = stepSnowflake params (N.of_nat i) <$> a !! i).
Proof.
  intros Hperm Hab. split.
  - rewrite (runInvocations_perm params gids gids' a Hperm).
    apply runInvocations_local, Hab.
  - apply dispatchWorkgroups_lookup.
Qed.

(** C10. The write-set of the step.  Whatever invocations run, every slot
    of the buffer keeps its [size], [phase], [alpha] and [rotation]; a slot
    whose index is not below [snowflakeCount] is not changed at all; the
    buffer keeps its length; and an invocation whose id is not below
    [snowflakeCount] leaves the whole buffer as it is. *)
Theorem step_write_set (params : SimParams F) (gids : list N)
    (snowflakes : list (Snowflake F)) (i : nat) (s : Snowflake F) :
  snowflakes !! i = Some s ->
  (exists s', runInvocations params gids snowflakes !! i = Some s'
     /\ size s' = size s /\ phase s' = phase s
     /\ alpha s' = alpha s /\ rotation s' = rotation s
     /\ ((snowflakeCount params <= N.of_nat i)%N -> s' = s))
  /\ length (runInvocations params gids snowflakes) = length snowflakes
  /\ (forall gid, (snowflakeCount params <= gid)%N ->
        updateSnowflakesFn params gid snowflakes = snowflakes).
Proof.
  intros Hs. split; [|split].
  - unfold runInvocations. revert snowflakes s Hs.
    induction gids as [|g gids IH]; intros buf s Hs; cbn [foldl].
    + exists s. repeat split; assumption || reflexivity.
    + destruct (updateSnowflakesFn_frame params g buf i s Hs)
        as (s1 & Hl1 & Hsz & Hph & Hal & Hro & Hout).
      destruct (IH _ _ Hl1) as (s2 & Hl2 & Hsz2 & Hph2 & Hal2 & Hro2 & Hout2).
      exists s2. repeat split; try congruence.
      intros Hge. rewrite Hout2, Hout by assumption. reflexivity.
  - unfold runInvocations. clear Hs. revert snowflakes.
    induction gids as [|g gids IH]; intros buf; cbn [foldl]; [reflexivity|].
    rewrite IH. apply updateSnowflakesFn_length.
  - intros gid. apply updateSnowflakesFn_out_of_range.
Qed.

End StageFacts.


Lemma per_particle_step_witness :
  runInvocations unitDome [0; 1]%N [restingSnowflake; outsideSnowflake]
    !! 0%nat
  = runInvocations unitDome [1; 0]%N [restingSnowflake; restingSnowflake]
      !! 0%nat
  /\ dispatchWorkgroups unitDome (workgroupCountFor (snowflakeCount unitDome))
       [restingSnowflake; outsideSnowflake] !! 0%nat
     = Some (stepSnowflake unitDome 0 restingSnowflake).
Proof.
  destruct (per_particle_step unitDome [0; 1]%N [1; 0]%N
              [restingSnowflake; outsideSnowflake]
              [restingSnowflake; restingSnowflake] 0
              (perm_swap _ _ _) eq_refl) as [Horder Hmap].
  split; [exact Horder|]. apply Hmap. reflexivity.
Defined.

Lemma step_write_set_witness :
  runInvocations unitDome [0; 1; 5]%N [restingSnowflake; outsideSnowflake]
    !! 1%nat
  = Some outsideSnowflake
  /\ updateSnowflakesFn unitDome 1 [restingSnowflake; outsideSnowflake]
     = [restingSnowflake; outsideSnowflake].
Proof.
  destruct (step_write_set unitDome [0; 1; 5]%N
              [restingSnowflake; outsideSnowflake] 1 outsideSnowflake eq_refl)
    as ((s' & Hlookup & _ & _ & _ & _ & Hsame) & _ & Hskip).
  split.
  - rewrite Hlookup, Hsame; [reflexivity|]. cbn. lia.
  - apply Hskip. cbn. lia.
Defined.

(** * Properties over the real numbers *)

(** ** Comparison, truncation and saturation *)

Lemma Rltb_spec (a b : R) : reflect (a < b) (Rltb a b).
Proof. unfold Rltb. destruct (Rlt_dec a b); constructor; assumption. Qed.

Lemma Rltb_true (a b : R) : a < b -> Rltb a b = true.
Proof. intros. destruct (Rltb_spec a b); [reflexivity | contradiction]. Qed.

Lemma Rltb_false (a b : R) : b <= a -> Rltb a b = false.
Proof. intros. destruct (Rltb_spec a b); [lra | reflexivity]. Qed.

Lemma Rtrunc_nonneg (v : R) :
  0 <= v -> IZR (Rtrunc v) <= v < IZR (Rtrunc v) + 1.
Proof.
  intros Hv. unfold Rtrunc. destruct (Rle_dec 0 v); [|contradiction].
  destruct (base_Int_part v). lra.
Qed.

Lemma Rtrunc_neg (v : R) :
  v < 0 -> IZR (Rtrunc v) - 1 < v <= IZR (Rtrunc v).
Proof.
  intros Hv. unfold Rtrunc. destruct (Rle_dec 0 v); [lra|].
  destruct (base_Int_part (- v)). rewrite opp_IZR. lra.
Qed.

Lemma saturate_i32_id (k : Z) :
  (-2147483648 <= k <= 2147483647)%Z -> saturate_i32 k = k.
Proof. unfold saturate_i32. lia. Qed.

Lemma Rtrunc_range (v : R) :
  -2147483648 < v < 2147483648 ->
  (-2147483648 <= Rtrunc v <= 2147483647)%Z.
Proof.
  intros [Hlo Hhi].
  destruct (Rle_dec 0 v) as [Hv|Hv].
  - destruct (Rtrunc_nonneg v Hv) as [H1 H2]. split.
    + apply le_IZR. lra.
    + apply Z.lt_succ_r. apply lt_IZR. unfold Z.succ. rewrite plus_IZR.
      simpl. lra.
  - destruct (Rtrunc_neg v) as [H1 H2]; [lra|]. split.
    + apply Z.lt_pred_le. apply lt_IZR. unfold Z.pred. rewrite plus_IZR.
      simpl. lra.
    + apply le_IZR. lra.
Qed.

(** For a value inside the range of [i32], [v - f32(i32(v))] is the
    fractional part of [v], with the sign of [v]. *)
Lemma frac_i32_nonneg (v : R) :
  0 <= v < 2147483648 ->
  0 <= v - IZR (saturate_i32 (Rtrunc v)) < 1.
Proof.
  intros [Hlo Hhi]. rewrite saturate_i32_id by (apply Rtrunc_range; lra).
  destruct (Rtrunc_nonneg v Hlo). lra.
Qed.

Lemma frac_i32_abs (v : R) :
  -2147483648 < v < 2147483648 ->
  -1 < v - IZR (saturate_i32 (Rtrunc v)) < 1.
Proof.
  intros Hv. rewrite saturate_i32_id by (apply Rtrunc_range; lra).
  destruct (Rle_dec 0 v) as [H0|H0].
  - destruct (Rtrunc_nonneg v H0). lra.
  - destruct (Rtrunc_neg v); lra.
Qed.

Lemma saturate_i32_high (v : R) :
  2147483647 <= v -> saturate_i32 (Rtrunc v) = 2147483647%Z.
Proof.
  intros Hv. destruct (Rtrunc_nonneg v) as [H1 H2]; [lra|].
  assert (2147483647 <= Rtrunc v)%Z.
  { apply Z.lt_succ_r. apply lt_IZR. unfold Z.succ. rewrite plus_IZR.
    simpl. lra. }
  unfold saturate_i32. lia.
Qed.

(** Reading the shader over the reals. *)
Ltac to_R :=
  cbn [fadd fsub fmul fdiv fsqrt fsin fcos fabs fltb lit
       f32_of_u32 f32_of_i32 i32_of_f32 R_scalar].

(** ** The noise function *)

Lemma hash_frac (q : R) :
  Rabs q < 13000000000 ->
  let s := q - IZR (saturate_i32 (Rtrunc (q / 6.2832))) * 6.2832 in
  let h := s * s * 43758.5453 in
  0 <= h - IZR (saturate_i32 (Rtrunc h)) < 1.
Proof.
  intros Hq s h.
  apply Rabs_def2 in Hq.
  assert (Hf : -1 < q / 6.2832 - IZR (saturate_i32 (Rtrunc (q / 6.2832))) < 1).
  { apply frac_i32_abs. lra. }
  set (k := IZR (saturate_i32 (Rtrunc (q / 6.2832)))) in *.
  assert (Hs : s = 6.2832 * (q / 6.2832 - k)).
  { unfold s. lra. }
  set (t := q / 6.2832 - k) in *.
  assert (Ht : t * t < 1) by nra.
  apply frac_i32_nonneg. unfold h. rewrite Hs. nra.
Qed.

Lemma Rabs_bound (v c : R) : Rabs v <= c -> - c <= v <= c.
Proof. unfold Rabs. destruct (Rcase_abs v); lra. Qed.

(** In exact arithmetic the noise is normalised for moderate inputs: when
    each coordinate of the input is at most [10^7] in absolute value, no
    conversion to [i32] saturates and the value lies in [[-1, 1)].  In
    binary32 the rounding of [px], [py] and [pz] makes the supposed
    remainders large much earlier: see [noise3DFn_binary32_midrange]. *)
Lemma noise3DFn_range (p : vec3f R) :
  Rabs (vec_x p) <= 10000000 -> Rabs (vec_y p) <= 10000000 ->
  Rabs (vec_z p) <= 10000000 ->
  -1 <= noise3DFn p < 1.
Proof.
  intros Hx Hy Hz.
  apply Rabs_bound in Hx, Hy, Hz.
  unfold noise3DFn. to_R.
  match goal with
  | |- _ <= (?a + ?b + ?c) / _ - _ < _ =>
      assert (Ha : 0 <= a < 1) by (apply hash_frac; apply Rabs_def1; lra);
      assert (Hb : 0 <= b < 1) by (apply hash_frac; apply Rabs_def1; lra);
      assert (Hc : 0 <= c < 1) by (apply hash_frac; apply Rabs_def1; lra);
      generalize dependent a; generalize dependent b; generalize dependent c
  end.
  intros. lra.
Qed.

(** ** Geometry of the dome *)

Lemma sum_sqr_nonneg (a b c : R) : 0 <= a * a + b * b + c * c.
Proof.
  pose proof (Rle_0_sqr a). pose proof (Rle_0_sqr b). pose proof (Rle_0_sqr c).
  unfold Rsqr in *. lra.
Qed.

Lemma distance_sqr (p : SimParams R) (l : Locals R) :
  distanceFromCenter p l * distanceFromCenter p l =
  posX l * posX l + (posY l - domeCenterY p) * (posY l - domeCenterY p)
  + posZ l * posZ l.
Proof. apply sqrt_sqrt, sum_sqr_nonneg. Qed.

Lemma outwardNormal_unit (p : SimParams R) (l : Locals R) :
  0 < distanceFromCenter p l ->
  dot (outwardNormal p l) (outwardNormal p l) = 1.
Proof.
  intros Hd. pose proof (distance_sqr p l) as Hs.
  unfold dot, outwardNormal; cbn.
  set (d := distanceFromCenter p l) in *.
  replace (posX l / d * (posX l / d)
           + (posY l - domeCenterY p) / d * ((posY l - domeCenterY p) / d)
           + posZ l / d * (posZ l / d))
    with ((posX l * posX l
           + (posY l - domeCenterY p) * (posY l - domeCenterY p)
           + posZ l * posZ l) / (d * d))
    by (field; lra).
  rewrite <- Hs. field. lra.
Qed.

Lemma domeBoundary_outside (p : SimParams R) (l : Locals R) :
  collisionRadius p < distanceFromCenter p l ->
  let n := outwardNormal p l in
  domeBoundary p l =
  mkLocals (vec_x n * collisionRadius p)
           (vec_y n * collisionRadius p + domeCenterY p)
           (vec_z n * collisionRadius p)
           (if Rltb 0 (dot (velocityOf l) n)
            then (velX l - 2 * dot (velocityOf l) n * vec_x n) * restitution p
            else velX l)
           (if Rltb 0 (dot (velocityOf l) n)
            then (velY l - 2 * dot (velocityOf l) n * vec_y n) * restitution p
            else velY l)
           (if Rltb 0 (dot (velocityOf l) n)
            then (velZ l - 2 * dot (velocityOf l) n * vec_z n) * restitution p
            else velZ l).
Proof.
  intros Hout n. unfold domeBoundary. to_R.
  change (sqrt _) with (distanceFromCenter p l).
  fold (collisionRadius p).
  rewrite (Rltb_true _ _ Hout).
  change (velX l * (posX l / distanceFromCenter p l)
          + velY l * ((posY l - domeCenterY p) / distanceFromCenter p l)
          + velZ l * (posZ l / distanceFromCenter p l))
    with (dot (velocityOf l) n).
  replace (Q2R 0.0) with 0 by lra.
  destruct (Rltb 0 (dot (velocityOf l) n)); f_equal; subst n;
    unfold outwardNormal, dot, velocityOf; cbn [vec_x vec_y vec_z]; lra.
Qed.

Lemma vec3f_eq (a b : vec3f R) :
  vec_x a = vec_x b -> vec_y a = vec_y b -> vec_z a = vec_z b -> a = b.
Proof. destruct a, b; cbn; intros; subst; reflexivity. Qed.

Lemma distance_pos_outside (p : SimParams R) (l : Locals R) :
  0 <= domeRadius p -> collisionRadius p < distanceFromCenter p l ->
  0 < distanceFromCenter p l.
Proof. unfold collisionRadius. intros. lra. Qed.

(** ** The stages over the reals *)

Lemma dragForce_R (p : SimParams R) (l : Locals R) :
  dragForce p l =
  if Rltb 0.001 (speedOf l)
  then scale (- (dragCoeff p * speedOf l)) (velocityOf l)
  else d_vec3f 0 0 0.
Proof.
  unfold dragForce. to_R. fold (speedOf l).
  destruct (Rltb 0.001 (speedOf l)); apply vec3f_eq; cbn; lra.
Qed.

Lemma integrate_zero_dt (p : SimParams R) (s : Snowflake R) (l : Locals R) :
  deltaTime p = 0 -> integrate p s l = l.
Proof.
  intros Hdt. unfold integrate. to_R. rewrite Hdt.
  destruct l; cbn. f_equal; ring.
Qed.

Lemma domeBoundary_inside (p : SimParams R) (l : Locals R) :
  distanceFromCenter p l <= collisionRadius p -> domeBoundary p l = l.
Proof.
  intros Hin. unfold domeBoundary. to_R.
  change (sqrt _) with (distanceFromCenter p l).
  fold (collisionRadius p).
  rewrite (Rltb_false _ _ Hin). reflexivity.
Qed.

Lemma floorBoundary_above (p : SimParams R) (l : Locals R) :
  floorY p <= posY l -> floorBoundary p l = (l, 0).
Proof.
  intros Hy. unfold floorBoundary. to_R.
  rewrite (Rltb_false _ _ Hy). f_equal. lra.
Qed.

Lemma floorBoundary_below (p : SimParams R) (l : Locals R) :
  posY l < floorY p ->
  floorBoundary p l =
  (mkLocals (posX l) (floorY p) (posZ l)
     (velX l * 0.9)
     (if Rltb (velY l) 0 then Rabs (velY l) * restitution p * 0.5 else velY l)
     (velZ l * 0.9), 1).
Proof.
  intros Hy. unfold floorBoundary. to_R.
  rewrite (Rltb_true _ _ Hy). replace (Q2R 0.0) with 0 by lra.
  destruct (Rltb (velY l) 0); repeat f_equal; lra.
Qed.

Lemma respawn_not_settled (p : SimParams R) (idx : N) (l : Locals R)
    (onFloor : R) :
  onFloor <= 0.5 \/ 0.02 <= speedOf l \/ 0.05 <= respawnRand p idx ->
  respawn p idx (l, onFloor) = l.
Proof.
  intros Hc. unfold respawn. to_R. fold (speedOf l).
  destruct (Rltb_spec 0.5 onFloor) as [H1|H1]; [|reflexivity].
  destruct (Rltb_spec (speedOf l) 0.02) as [H2|H2]; [|reflexivity].
  cbn [andb].
  destruct (Rltb_spec (respawnRand p idx) 0.05) as [H3|H3]; [|reflexivity].
  exfalso. lra.
Qed.

Lemma respawn_selected (p : SimParams R) (idx : N) (l : Locals R)
    (onFloor : R) :
  0.5 < onFloor -> speedOf l < 0.02 -> respawnRand p idx < 0.05 ->
  respawn p idx (l, onFloor) =
  mkLocals (vec_x (respawnPosition p idx)) (vec_y (respawnPosition p idx))
           (vec_z (respawnPosition p idx)) 0 (- 0.01) 0.
Proof.
  intros H1 H2 H3. unfold respawn. to_R. fold (speedOf l).
  rewrite (Rltb_true 0.5 onFloor) by lra.
  rewrite (Rltb_true (speedOf l)) by lra.
  rewrite (Rltb_true (respawnRand p idx)) by lra.
  cbn [andb]. f_equal; lra.
Qed.

(** ** The respawn cap *)

Lemma index_range (idx : N) :
  (idx < 2147483648)%N -> 0 <= IZR (Z.of_N idx) < 2147483648.
Proof.
  intros Hi. split.
  - apply IZR_le. lia.
  - apply IZR_lt. lia.
Qed.

Lemma respawn_time_bound (p : SimParams R) (idx : N) :
  0 <= time p -> respawnRand p idx < 0.05 -> time p * 10 < 2147483648.
Proof.
  intros Ht Hr. unfold respawnRand in Hr. revert Hr. to_R. intros Hr.
  assert (0 <= IZR (Z.of_N idx)) by (apply IZR_le; lia).
  destruct (Rlt_dec (time p * 10) 2147483648) as [|Hge]; [assumption|].
  exfalso.
  rewrite saturate_i32_high in Hr by nra.
  nra.
Qed.

Lemma respawnPosition_cap (p : SimParams R) (idx : N) :
  0 <= time p -> (idx < 2147483648)%N -> respawnRand p idx < 0.05 ->
  exists theta u h,
    0 <= u < 1 /\ 0 <= h < 1 /\
    respawnPosition p idx =
    d_vec3f (sin theta * capRadius p u h)
            (domeCenterY p + capHeight p h)
            (cos theta * capRadius p u h).
Proof.
  intros Ht Hi Hr.
  pose proof (respawn_time_bound p idx Ht Hr) as Htb.
  pose proof (index_range idx Hi) as [Hi0 Hi1].
  unfold respawnPosition. to_R.
  set (seed1 := IZR (Z.of_N idx) * 0.1234 + time p * 0.567).
  set (seed2 := IZR (Z.of_N idx) * 0.5678 + time p * 0.123).
  set (seed3 := IZR (Z.of_N idx) * 0.9012 + time p * 0.345).
  assert (H2 : 0 <= seed2 - IZR (saturate_i32 (Rtrunc seed2)) < 1)
    by (apply frac_i32_nonneg; unfold seed2; nra).
  assert (H3 : 0 <= seed3 - IZR (saturate_i32 (Rtrunc seed3)) < 1)
    by (apply frac_i32_nonneg; unfold seed3; nra).
  exists ((seed1 - IZR (saturate_i32 (Rtrunc seed1))) * 6.2832),
         (seed2 - IZR (saturate_i32 (Rtrunc seed2))),
         (seed3 - IZR (saturate_i32 (Rtrunc seed3))).
  split; [exact H2|]. split; [exact H3|].
  set (u := seed2 - IZR (saturate_i32 (Rtrunc seed2))).
  set (h := seed3 - IZR (saturate_i32 (Rtrunc seed3))).
  unfold capRadius, capHeight.
  replace (domeCenterY p + domeRadius p * (0.5 + h * 0.35) - domeCenterY p)
    with (domeRadius p * (0.5 + h * 0.35)) by lra.
  reflexivity.
Qed.

Lemma sqrt_le_bound (a m : R) : 0 <= m -> a <= m * m -> sqrt a <= m.
Proof.
  intros Hm Ha. destruct (Rle_dec 0 a) as [H0|H0].
  - rewrite <- (sqrt_square m Hm). apply sqrt_le_1; nra.
  - rewrite sqrt_neg_0; lra.
Qed.

Lemma capHeight_band (p : SimParams R) (h : R) :
  0 <= domeRadius p -> 0 <= h < 1 ->
  domeRadius p * 0.5 <= capHeight p h <= domeRadius p * 0.85.
Proof. unfold capHeight. intros. nra. Qed.

Lemma cap_section_nonneg (p : SimParams R) (h : R) :
  0 <= h < 1 ->
  0 <= domeRadius p * domeRadius p * 0.9 - capHeight p h * capHeight p h.
Proof.
  intros Hh. unfold capHeight.
  assert (0 <= domeRadius p * domeRadius p) by nra.
  assert ((0.5 + h * 0.35) * (0.5 + h * 0.35) <= 0.7225) by nra.
  nra.
Qed.

Lemma capRadius_sqr (p : SimParams R) (u h : R) :
  0 <= u -> 0 <= h < 1 ->
  capRadius p u h * capRadius p u h =
  u * (0.7225 * (domeRadius p * domeRadius p * 0.9
                 - capHeight p h * capHeight p h)).
Proof.
  intros Hu Hh. unfold capRadius.
  pose proof (sqrt_sqrt u Hu) as H1.
  pose proof (sqrt_sqrt _ (cap_section_nonneg p h Hh)) as H2.
  set (a := sqrt u) in *.
  set (b := sqrt (domeRadius p * domeRadius p * 0.9
                  - capHeight p h * capHeight p h)) in *.
  replace (a * (b * 0.85) * (a * (b * 0.85)))
    with ((a * a) * (0.7225 * (b * b))) by lra.
  rewrite H1, H2. reflexivity.
Qed.

Lemma horizontal_sqr (theta r : R) :
  sin theta * r * (sin theta * r) + cos theta * r * (cos theta * r) = r * r.
Proof.
  pose proof (sin2_cos2 theta) as Hsc. unfold Rsqr in Hsc.
  replace (sin theta * r * (sin theta * r) + cos theta * r * (cos theta * r))
    with ((sin theta * sin theta + cos theta * cos theta) * (r * r)) by ring.
  rewrite Hsc. ring.
Qed.

(** A point of the respawn cap is inside the collision sphere. *)
Lemma cap_inside (p : SimParams R) (theta u h : R) (vx vy vz : R) :
  0 <= domeRadius p -> 0 <= u < 1 -> 0 <= h < 1 ->
  distanceFromCenter p
    (mkLocals (sin theta * capRadius p u h) (domeCenterY p + capHeight p h)
              (cos theta * capRadius p u h) vx vy vz)
  <= collisionRadius p.
Proof.
  intros HR Hu Hh. unfold distanceFromCenter, collisionRadius.
  cbn [posX posY posZ].
  apply sqrt_le_bound; [lra|].
  replace (domeCenterY p + capHeight p h - domeCenterY p)
    with (capHeight p h) by lra.
  pose proof (horizontal_sqr theta (capRadius p u h)) as Hh2.
  pose proof (capRadius_sqr p u h (proj1 Hu) Hh) as Hr.
  pose proof (cap_section_nonneg p h Hh) as HA.
  pose proof (capHeight_band p h HR Hh) as Hb.
  set (A := domeRadius p * domeRadius p * 0.9
            - capHeight p h * capHeight p h) in *.
  set (c := capHeight p h) in *.
  set (r := capRadius p u h) in *.
  set (x := sin theta * r) in *. set (z := cos theta * r) in *.
  assert (c * c <= domeRadius p * domeRadius p * 0.7225) by nra.
  assert (u * (0.7225 * A) <= 0.7225 * A) by nra.
  subst A. nra.
Qed.

(** ** Containment, stage by stage *)

Lemma domeBoundary_clamps (p : SimParams R) (l : Locals R) :
  0 <= domeRadius p ->
  collisionRadius p < distanceFromCenter p l ->
  distanceFromCenter p (domeBoundary p l) = collisionRadius p.
Proof.
  intros HR Hout.
  pose proof (distance_pos_outside p l HR Hout) as Hpos.
  pose proof (outwardNormal_unit p l Hpos) as Hunit.
  assert (Hm : 0 <= collisionRadius p) by (unfold collisionRadius; lra).
  rewrite (domeBoundary_outside p l Hout).
  unfold dot in Hunit.
  set (n := outwardNormal p l) in *. set (m := collisionRadius p) in *.
  clearbody n m.
  unfold distanceFromCenter. cbn [posX posY posZ].
  replace (vec_x n * m * (vec_x n * m)
           + (vec_y n * m + domeCenterY p - domeCenterY p)
             * (vec_y n * m + domeCenterY p - domeCenterY p)
           + vec_z n * m * (vec_z n * m))
    with ((vec_x n * vec_x n + vec_y n * vec_y n + vec_z n * vec_z n)
          * (m * m)) by ring.
  rewrite Hunit, Rmult_1_l. apply sqrt_square, Hm.
Qed.

Lemma domeBoundary_within (p : SimParams R) (l : Locals R) :
  0 <= domeRadius p ->
  distanceFromCenter p (domeBoundary p l) <= collisionRadius p.
Proof.
  intros HR.
  destruct (Rle_dec (distanceFromCenter p l) (collisionRadius p)) as [Hin|Hout].
  - rewrite domeBoundary_inside; assumption.
  - rewrite domeBoundary_clamps; lra.
Qed.

Lemma floorBoundary_within (p : SimParams R) (l : Locals R) :
  floorY p <= domeCenterY p ->
  distanceFromCenter p l <= collisionRadius p ->
  containedLocals p (fst (floorBoundary p l)).
Proof.
  intros Hf Hin.
  destruct (Rlt_dec (posY l) (floorY p)) as [Hlo|Hhi].
  - rewrite (floorBoundary_below p l Hlo). cbn [fst]. split; [|cbn; lra].
    eapply Rle_trans; [|exact Hin].
    unfold distanceFromCenter. cbn [posX posY posZ].
    apply sqrt_le_1; try apply sum_sqr_nonneg. nra.
  - rewrite floorBoundary_above by lra. cbn [fst]. split; [assumption | lra].
Qed.

Lemma respawn_within (p : SimParams R) (idx : N) (l : Locals R) (onFloor : R) :
  validScene p -> (idx < snowflakeCount p)%N ->
  containedLocals p l -> containedLocals p (respawn p idx (l, onFloor)).
Proof.
  intros (HR & Hf & Ht & Hc) Hidx Hin.
  destruct (Rlt_dec 0.5 onFloor) as [H1|H1];
    [|rewrite respawn_not_settled by lra; assumption].
  destruct (Rlt_dec (speedOf l) 0.02) as [H2|H2];
    [|rewrite respawn_not_settled by lra; assumption].
  destruct (Rlt_dec (respawnRand p idx) 0.05) as [H3|H3];
    [|rewrite respawn_not_settled by lra; assumption].
  rewrite respawn_selected by assumption.
  destruct (respawnPosition_cap p idx Ht) as (theta & u & h & Hu & Hh & ->);
    [lia | assumption |].
  cbn [vec_x vec_y vec_z]. split.
  - apply cap_inside; assumption.
  - cbn [posY]. pose proof (capHeight_band p h HR Hh). lra.
Qed.

Lemma stepLocals_within (p : SimParams R) (idx : N) (s : Snowflake R) :
  validScene p -> (idx < snowflakeCount p)%N ->
  containedLocals p (stepLocals p idx s).
Proof.
  intros Hv Hidx. unfold stepLocals.
  destruct Hv as (HR & Hf & Hrest).
  pose proof (floorBoundary_within p
                (domeBoundary p (integrate p s (readLocals s))) Hf
                (domeBoundary_within p _ HR)) as Hfl.
  destruct (floorBoundary p (domeBoundary p (integrate p s (readLocals s))))
    as [l onFloor].
  apply respawn_within; [repeat split; tauto | assumption | exact Hfl].
Qed.

Lemma stepSnowflake_contained (p : SimParams R) (idx : N) (s : Snowflake R) :
  validScene p -> (idx < snowflakeCount p)%N ->
  contained p (stepSnowflake p idx s).
Proof.
  intros Hv Hidx. pose proof (stepLocals_within p idx s Hv Hidx) as H.
  unfold contained, stepSnowflake, writeBack, readLocals. cbn.
  destruct (stepLocals p idx s). exact H.
Qed.

(** ** Dome collision *)

(** The velocity after a reflection, split along and across the normal. *)
Lemma reflected_parts (v n : vec3f R) (r : R) :
  dot n n = 1 ->
  let v' := scale r (vsub v (scale (2 * dot v n) n)) in
  normalPart v' n = scale (- r) (normalPart v n)
  /\ tangentialPart v' n = scale r (tangentialPart v n).
Proof.
  intros Hunit v'.
  assert (Hd : dot v' n = - r * dot v n).
  { unfold v', dot, scale, vsub in *. cbn [vec_x vec_y vec_z] in *.
    replace (r * (vec_x v - 2 * (vec_x v * vec_x n + vec_y v * vec_y n
                                 + vec_z v * vec_z n) * vec_x n) * vec_x n
             + r * (vec_y v - 2 * (vec_x v * vec_x n + vec_y v * vec_y n
                                   + vec_z v * vec_z n) * vec_y n) * vec_y n
             + r * (vec_z v - 2 * (vec_x v * vec_x n + vec_y v * vec_y n
                                   + vec_z v * vec_z n) * vec_z n) * vec_z n)
      with (r * (vec_x v * vec_x n + vec_y v * vec_y n + vec_z v * vec_z n)
            * (1 - 2 * (vec_x n * vec_x n + vec_y n * vec_y n
                        + vec_z n * vec_z n))) by ring.
    rewrite Hunit. ring. }
  unfold tangentialPart, normalPart. rewrite Hd.
  split; apply vec3f_eq; unfold v', scale, vsub; cbn [vec_x vec_y vec_z]; ring.
Qed.

Lemma domeBoundary_position (p : SimParams R) (l : Locals R) :
  collisionRadius p < distanceFromCenter p l ->
  positionOf (domeBoundary p l)
  = vadd (domeCenter p) (scale (collisionRadius p) (outwardNormal p l)).
Proof.
  intros Hout. rewrite (domeBoundary_outside p l Hout).
  apply vec3f_eq; cbn; ring.
Qed.

Lemma domeBoundary_outward_velocity (p : SimParams R) (l : Locals R) :
  collisionRadius p < distanceFromCenter p l ->
  0 < dot (velocityOf l) (outwardNormal p l) ->
  velocityOf (domeBoundary p l)
  = scale (restitution p)
      (vsub (velocityOf l)
         (scale (2 * dot (velocityOf l) (outwardNormal p l))
            (outwardNormal p l))).
Proof.
  intros Hout Hvn. rewrite (domeBoundary_outside p l Hout).
  rewrite (Rltb_true _ _ Hvn).
  apply vec3f_eq; cbn [velocityOf scale vsub vec_x vec_y vec_z velX velY velZ];
    ring.
Qed.

Lemma domeBoundary_inward_velocity (p : SimParams R) (l : Locals R) :
  collisionRadius p < distanceFromCenter p l ->
  dot (velocityOf l) (outwardNormal p l) <= 0 ->
  velocityOf (domeBoundary p l) = velocityOf l.
Proof.
  intros Hout Hvn. rewrite (domeBoundary_outside p l Hout).
  rewrite (Rltb_false _ _ Hvn). reflexivity.
Qed.

Lemma axis_distance (vx vy vz : R) :
  distanceFromCenter unitDome (mkLocals 4 0 0 vx vy vz) = 4.
Proof.
  unfold distanceFromCenter, unitDome.
  cbn [posX posY posZ domeCenterY].
  replace (4 * 4 + (0 - 0) * (0 - 0) + 0 * 0) with (4 * 4) by lra.
  apply sqrt_square. lra.
Qed.

Lemma axis_outside (vx vy vz : R) :
  collisionRadius unitDome
  < distanceFromCenter unitDome (mkLocals 4 0 0 vx vy vz).
Proof.
  rewrite axis_distance. unfold collisionRadius, unitDome.
  cbn [domeRadius]. lra.
Qed.

Lemma axis_normal (vx vy vz : R) :
  outwardNormal unitDome (mkLocals 4 0 0 vx vy vz) = d_vec3f 1 0 0.
Proof.
  unfold outwardNormal. rewrite axis_distance.
  unfold unitDome. cbn [posX posY posZ domeCenterY].
  apply vec3f_eq; cbn [vec_x vec_y vec_z]; lra.
Qed.

Lemma outwardLocals_outside :
  collisionRadius unitDome < distanceFromCenter unitDome outwardLocals.
Proof. apply axis_outside. Qed.

Lemma outwardLocals_normal :
  outwardNormal unitDome outwardLocals = d_vec3f 1 0 0.
Proof. apply axis_normal. Qed.

Lemma inwardLocals_moves_inward :
  dot (velocityOf inwardLocals) (outwardNormal unitDome inwardLocals) <= 0.
Proof.
  unfold inwardLocals. rewrite axis_normal. unfold dot, velocityOf.
  cbn [vec_x vec_y vec_z velX velY velZ]. lra.
Qed.

Lemma outwardLocals_moves_outward :
  0 < dot (velocityOf outwardLocals) (outwardNormal unitDome outwardLocals).
Proof.
  rewrite outwardLocals_normal. unfold dot, velocityOf, outwardLocals.
  cbn [vec_x vec_y vec_z velX velY velZ]. lra.
Qed.

(** C1 (as amended; over the reals). For a particle whose distance from the
    dome centre
    after integration exceeds [domeRadius * 0.95] (a dome of non-negative
    radius), the stage puts the position on the sphere of that radius
    around the centre, along the outward normal.  When the velocity points
    outward ([dot(velocity, normal) > 0]) the new velocity is the mirror
    image of the old one scaled by [restitution]: its normal part is the old
    normal part reversed and scaled by [restitution], and its tangential
    part is the old tangential part scaled by [restitution] as well.  When
    [dot(velocity, normal) <= 0] the velocity is unchanged. *)
Theorem domeBoundary_reflects (p : SimParams R) (l : Locals R) :
  0 <= domeRadius p ->
  collisionRadius p < distanceFromCenter p l ->
  let n := outwardNormal p l in
  let l' := domeBoundary p l in
  positionOf l' = vadd (domeCenter p) (scale (collisionRadius p) n)
  /\ distanceFromCenter p l' = collisionRadius p
  /\ (0 < dot (velocityOf l) n ->
      normalPart (velocityOf l') n
        = scale (- restitution p) (normalPart (velocityOf l) n)
      /\ tangentialPart (velocityOf l') n
        = scale (restitution p) (tangentialPart (velocityOf l) n))
  /\ (dot (velocityOf l) n <= 0 -> velocityOf l' = velocityOf l).
Proof.
  intros HR Hout n l'. subst l'. split; [|split; [|split]].
  - apply domeBoundary_position, Hout.
  - apply domeBoundary_clamps; assumption.
  - intros Hvn. rewrite (domeBoundary_outward_velocity p l Hout Hvn).
    apply reflected_parts, outwardNormal_unit.
    apply (distance_pos_outside p l HR Hout).
  - apply domeBoundary_inward_velocity, Hout.
Qed.

Lemma domeBoundary_reflects_witness :
  distanceFromCenter unitDome (domeBoundary unitDome outwardLocals)
  = collisionRadius unitDome
  /\ tangentialPart (velocityOf (domeBoundary unitDome outwardLocals))
       (outwardNormal unitDome outwardLocals)
     = scale (restitution unitDome)
         (tangentialPart (velocityOf outwardLocals)
            (outwardNormal unitDome outwardLocals))
  /\ velocityOf (domeBoundary unitDome inwardLocals)
     = velocityOf inwardLocals.
Proof.
  assert (HR : 0 <= domeRadius unitDome)
    by (unfold unitDome; cbn [domeRadius]; lra).
  destruct (domeBoundary_reflects unitDome outwardLocals HR
              outwardLocals_outside) as (_ & Hdist & Hout & _).
  destruct (domeBoundary_reflects unitDome inwardLocals HR
              (axis_outside _ _ _)) as (_ & _ & _ & Hin).
  split; [exact Hdist|]. split.
  - apply Hout, outwardLocals_moves_outward.
  - apply Hin, inwardLocals_moves_inward.
Defined.

(** C1, as first stated, fails: with restitution 1/2, the particle at
    [(4, 0, 0)] with velocity [(1, 1, 0)] is outside the unit dome and moves
    outward, and the reflection changes the tangential part of its
    velocity. *)
Lemma domeBoundary_tangential_not_preserved :
  collisionRadius unitDome < distanceFromCenter unitDome outwardLocals
  /\ 0 < dot (velocityOf outwardLocals) (outwardNormal unitDome outwardLocals)
  /\ tangentialPart (velocityOf (domeBoundary unitDome outwardLocals))
       (outwardNormal unitDome outwardLocals)
     <> tangentialPart (velocityOf outwardLocals)
          (outwardNormal unitDome outwardLocals).
Proof.
  split; [exact outwardLocals_outside|].
  split; [exact outwardLocals_moves_outward|].
  rewrite (domeBoundary_outward_velocity _ _ outwardLocals_outside
             outwardLocals_moves_outward).
  rewrite outwardLocals_normal. intros Heq.
  apply (f_equal vec_y) in Heq. revert Heq.
  unfold tangentialPart, normalPart, vsub, scale, dot, velocityOf,
    outwardLocals, unitDome.
  cbn [vec_x vec_y vec_z velX velY velZ restitution]. lra.
Qed.

(** In binary32 the same particle leaves the stage with velocity
    [(-0.5, 0.5, 0)]: the sideways component 1 has been halved. *)
Example domeBoundary_binary32 (sin32 cos32 : spec_float -> spec_float) :
  @domeBoundary _ (F32 sin32 cos32) unitDome32 outwardLocals32 =
  mkLocals (b32_of_Q 0.95) (b32_of_Q 0) (b32_of_Q 0)
           (SFopp (b32_of_Q 0.5)) (b32_of_Q 0.5) (b32_of_Q 0).
Proof. vm_compute. reflexivity. Qed.

(** ** Zero time step *)

Lemma writeBack_readLocals (s : Snowflake R) : writeBack s (readLocals s) = s.
Proof. destruct s as [[? ? ?] [? ? ?] ? ? ? ?]. reflexivity. Qed.

Lemma stepLocals_zero_dt (p : SimParams R) (idx : N) (s : Snowflake R) :
  deltaTime p = 0 ->
  stepLocals p idx s
  = respawn p idx (floorBoundary p (domeBoundary p (readLocals s))).
Proof.
  intros Hdt. unfold stepLocals. rewrite integrate_zero_dt by assumption.
  reflexivity.
Qed.

Lemma outsideSnowflake_distance :
  distanceFromCenter unitDome (readLocals outsideSnowflake) = 2.
Proof.
  unfold distanceFromCenter, unitDome, outsideSnowflake, readLocals.
  cbn [posX posY posZ domeCenterY position vec_x vec_y vec_z].
  replace (2 * 2 + (0 - 0) * (0 - 0) + 0 * 0) with (2 * 2) by lra.
  apply sqrt_square. lra.
Qed.

Lemma restingSnowflake_distance :
  distanceFromCenter unitDome (readLocals restingSnowflake) = 0.
Proof.
  unfold distanceFromCenter, unitDome, restingSnowflake, readLocals.
  cbn [posX posY posZ domeCenterY position vec_x vec_y vec_z].
  replace (0 * 0 + (0 - 0) * (0 - 0) + 0 * 0) with 0 by lra.
  apply sqrt_0.
Qed.

(** C3 (as amended; over the reals). With [deltaTime = 0], a particle that
    is inside the
    collision sphere (distance from the dome centre at most
    [domeRadius * 0.95]) and not below the floor keeps its position and its
    velocity, and the whole record, exactly: the integration adds nothing
    and neither boundary stage nor the respawn applies. *)
Theorem zero_dt_keeps_contained (p : SimParams R) (idx : N)
    (s : Snowflake R) :
  deltaTime p = 0 ->
  contained p s ->
  stepSnowflake p idx s = s.
Proof.
  intros Hdt [Hin Hfloor]. unfold stepSnowflake.
  rewrite stepLocals_zero_dt by assumption.
  rewrite domeBoundary_inside by assumption.
  rewrite floorBoundary_above by assumption.
  rewrite respawn_not_settled by (left; lra).
  apply writeBack_readLocals.
Qed.

Lemma zero_dt_keeps_contained_witness :
  stepSnowflake unitDome 0 restingSnowflake = restingSnowflake.
Proof.
  apply zero_dt_keeps_contained.
  - reflexivity.
  - split.
    + rewrite restingSnowflake_distance. unfold collisionRadius, unitDome.
      cbn [domeRadius]. lra.
    + unfold unitDome, restingSnowflake, readLocals.
      cbn [floorY posY position vec_y]. lra.
Defined.

(** C3, as first stated, fails: in the unit dome with [deltaTime = 0], the
    particle at rest at [(2, 0, 0)] is moved by the step, to the collision
    sphere. *)
Lemma zero_dt_moves_outside_particle :
  deltaTime unitDome = 0
  /\ position (stepSnowflake unitDome 0 outsideSnowflake)
     <> position outsideSnowflake.
Proof.
  split; [reflexivity|].
  assert (Hout : collisionRadius unitDome
                 < distanceFromCenter unitDome (readLocals outsideSnowflake)).
  { rewrite outsideSnowflake_distance. unfold collisionRadius, unitDome.
    cbn [domeRadius]. lra. }
  unfold stepSnowflake. rewrite stepLocals_zero_dt by reflexivity.
  rewrite (domeBoundary_outside _ _ Hout).
  unfold outwardNormal. rewrite outsideSnowflake_distance.
  rewrite floorBoundary_above.
  - rewrite respawn_not_settled by (left; lra).
    intros Heq. apply (f_equal vec_x) in Heq. revert Heq.
    unfold writeBack, readLocals, outsideSnowflake, collisionRadius, unitDome.
    cbn [position vec_x vec_y vec_z posX posY posZ domeRadius domeCenterY].
    lra.
  - unfold readLocals, outsideSnowflake, collisionRadius, unitDome.
    cbn [position vec_x vec_y vec_z posX posY posZ domeRadius domeCenterY
         floorY]. lra.
Qed.

(** ** Containment *)

Lemma runFrames_snoc (frames : list (SimParams R)) (p : SimParams R)
    (snowflakes : list (Snowflake R)) :
  runFrames (frames ++ [p]) snowflakes
  = dispatchWorkgroups p (workgroupCountFor (snowflakeCount p))
      (runFrames frames snowflakes).
Proof. unfold runFrames. rewrite foldl_app. reflexivity. Qed.

(** C2 (over the reals). After a step whose parameters describe a valid
    scene (dome radius
    not negative, floor not above the dome centre, time not negative,
    particle count within the range of [i32]), every particle with index
    below [snowflakeCount], whatever its state before, is at distance at
    most [domeRadius * 0.95] from the dome centre and not below [floorY];
    hence this holds after any number of frames, whatever the earlier
    frames were. *)
Theorem containment_invariant (frames : list (SimParams R))
    (p : SimParams R) (snowflakes : list (Snowflake R)) (i : nat)
    (s : Snowflake R) :
  validScene p ->
  (N.of_nat i < snowflakeCount p)%N ->
  runFrames (frames ++ [p]) snowflakes !! i = Some s ->
  contained p s.
Proof.
  intros Hv Hi. rewrite runFrames_snoc, dispatchWorkgroups_lookup by exact Hi.
  destruct (runFrames frames snowflakes !! i) as [s0|]; [|discriminate].
  intros [= <-]. apply stepSnowflake_contained; assumption.
Qed.

Lemma unitDome_valid : validScene unitDome.
Proof.
  unfold validScene, unitDome.
  cbn [domeRadius floorY domeCenterY time snowflakeCount].
  repeat split; try lra. lia.
Qed.

Lemma containment_invariant_witness :
  contained unitDome (stepSnowflake unitDome 0 outsideSnowflake).
Proof.
  apply (containment_invariant [] unitDome [outsideSnowflake] 0).
  - exact unitDome_valid.
  - reflexivity.
  - rewrite runFrames_snoc.
    rewrite dispatchWorkgroups_lookup by reflexivity. reflexivity.
Defined.

Lemma slidingSnowflake_distance :
  distanceFromCenter highFloorDome (readLocals slidingSnowflake) = 9 / 10.
Proof.
  unfold distanceFromCenter, readLocals, slidingSnowflake, highFloorDome.
  cbn [position vec_x vec_y vec_z posX posY posZ domeCenterY].
  replace (9 / 10 * (9 / 10) + (0 - 0) * (0 - 0) + 0 * 0)
    with (9 / 10 * (9 / 10)) by lra.
  apply sqrt_square. lra.
Qed.

(** C2, as first stated, fails for a scene whose floor is above the dome
    centre, the other conditions on the scene being met: in the unit dome
    with its floor at height 1/2 and [deltaTime = 0], the snowflake at
    [(0.9, 0, 0)] with velocity [(1, 0, 0)] is inside the collision sphere;
    the floor stage lifts it to [(0.9, 0.5, 0)], at distance
    [sqrt 1.06 > 0.95] from the dome centre, and the step leaves it
    there. *)
Lemma containment_fails_floor_above_centre :
  (0 <= domeRadius highFloorDome /\ 0 <= time highFloorDome
   /\ (0 < snowflakeCount highFloorDome <= 2147483648)%N)
  /\ position (stepSnowflake highFloorDome 0 slidingSnowflake)
     = d_vec3f (9 / 10) (1 / 2) 0
  /\ collisionRadius highFloorDome
     < distanceFromCenter highFloorDome
         (readLocals (stepSnowflake highFloorDome 0 slidingSnowflake))
  /\ ~ contained highFloorDome (stepSnowflake highFloorDome 0 slidingSnowflake).
Proof.
  assert (Hstep : stepLocals highFloorDome 0 slidingSnowflake
                  = mkLocals (9 / 10) (1 / 2) 0 (1 * 0.9) 0 (0 * 0.9)).
  { rewrite stepLocals_zero_dt by reflexivity.
    rewrite domeBoundary_inside.
    2:{ rewrite slidingSnowflake_distance.
        unfold collisionRadius, highFloorDome. cbn [domeRadius]. lra. }
    rewrite floorBoundary_below.
    2:{ unfold readLocals, slidingSnowflake, highFloorDome.
        cbn [position vec_y posY floorY]. lra. }
    unfold readLocals, slidingSnowflake, highFloorDome.
    cbn [position velocity vec_x vec_y vec_z posX posY posZ velX velY velZ
         floorY restitution].
    rewrite (Rltb_false 0 0) by lra.
    apply respawn_not_settled. right. left.
    unfold speedOf. cbn [velX velY velZ].
    replace (1 * 0.9 * (1 * 0.9) + 0 * 0 + 0 * 0.9 * (0 * 0.9))
      with (0.9 * 0.9) by lra.
    rewrite sqrt_square; lra. }
  assert (Hfar : collisionRadius highFloorDome
                 < distanceFromCenter highFloorDome
                     (readLocals
                        (stepSnowflake highFloorDome 0 slidingSnowflake))).
  { unfold stepSnowflake. rewrite Hstep.
    unfold distanceFromCenter, collisionRadius, writeBack, readLocals,
      highFloorDome.
    cbn [position vec_x vec_y vec_z posX posY posZ domeRadius domeCenterY].
    rewrite <- (sqrt_square (1 * 0.95)) by lra.
    apply sqrt_lt_1_alt. lra. }
  split; [|split; [|split]].
  - unfold highFloorDome. cbn [domeRadius time snowflakeCount].
    repeat split; try lra; lia.
  - unfold stepSnowflake. rewrite Hstep. reflexivity.
  - exact Hfar.
  - intros [Hin _]. lra.
Qed.

(** The statement is about exact arithmetic.  In binary32 a finite state can
    overflow: for the velocity [(3e19, 0, 0)] the square of the speed is
    infinite, and the drag acceleration of the scene of [config.ts] is
    [(-infinity, NaN, NaN)], whatever the time step. *)
Example dragForce_binary32_overflow (sin32 cos32 : spec_float -> spec_float) :
  @dragForce _ (F32 sin32 cos32) configScene32 fastLocals32
  = d_vec3f (S754_infinity true) S754_nan S754_nan.
Proof. vm_compute. reflexivity. Qed.

(** ** Respawn *)


Lemma speedOf_rest (a b c : R) : speedOf (mkLocals a b c 0 0 0) = 0.
Proof.
  unfold speedOf. cbn [velX velY velZ].
  replace (0 * 0 + 0 * 0 + 0 * 0) with 0 by lra. apply sqrt_0.
Qed.

(** For a value that is not negative and within the range of [i32],
    [v - f32(i32(v))] is the fractional part of [v]. *)
Lemma frac_i32_Rfract (v : R) :
  0 <= v < 2147483648 -> v - IZR (saturate_i32 (Rtrunc v)) = Rfract v.
Proof.
  intros [Hlo Hhi]. rewrite saturate_i32_id by (apply Rtrunc_range; lra).
  unfold Rtrunc, Rfract. destruct (Rle_dec 0 v); [reflexivity|contradiction].
Qed.

Lemma Rfract_bounds (v : R) : 0 <= Rfract v < 1.
Proof. unfold Rfract. destruct (base_Int_part v). lra. Qed.

Lemma Rfract_small (v : R) : 0 <= v < 1 -> Rfract v = v.
Proof.
  intros [Hlo Hhi]. unfold Rfract. destruct (base_Int_part v) as [H1 H2].
  assert (Int_part v < 1)%Z by (apply lt_IZR; lra).
  assert (-1 < Int_part v)%Z by (apply lt_IZR; lra).
  replace (Int_part v) with 0%Z by lia. lra.
Qed.

(** The pseudo-random value of the respawn test is the fractional part of
    [idx * 0.0001 + time * 10], as long as that sum is within the range of
    [i32]. *)
Lemma respawnRand_Rfract (p : SimParams R) (idx : N) :
  0 <= time p ->
  IZR (Z.of_N idx) * 0.0001 + time p * 10 < 2147483648 ->
  respawnRand p idx = Rfract (IZR (Z.of_N idx) * 0.0001 + time p * 10).
Proof.
  intros Ht Hc. unfold respawnRand. to_R.
  assert (0 <= IZR (Z.of_N idx)) by (apply IZR_le; lia).
  replace (IZR (Z.of_N idx) * 0.0001 + time p * 10.0)
    with (IZR (Z.of_N idx) * 0.0001 + time p * 10) by lra.
  apply frac_i32_Rfract. nra.
Qed.

(** The respawn position as a function of the index and the time: the
    angle, the radial fraction and the height fraction are the fractional
    parts of three linear combinations of the two. *)
Lemma respawnPosition_explicit (p : SimParams R) (idx : N) :
  0 <= time p -> (idx < 2147483648)%N -> respawnRand p idx < 0.05 ->
  respawnPosition p idx =
  d_vec3f
    (sin (Rfract (IZR (Z.of_N idx) * 0.1234 + time p * 0.567) * 6.2832)
     * capRadius p (Rfract (IZR (Z.of_N idx) * 0.5678 + time p * 0.123))
                   (Rfract (IZR (Z.of_N idx) * 0.9012 + time p * 0.345)))
    (domeCenterY p
     + capHeight p (Rfract (IZR (Z.of_N idx) * 0.9012 + time p * 0.345)))
    (cos (Rfract (IZR (Z.of_N idx) * 0.1234 + time p * 0.567) * 6.2832)
     * capRadius p (Rfract (IZR (Z.of_N idx) * 0.5678 + time p * 0.123))
                   (Rfract (IZR (Z.of_N idx) * 0.9012 + time p * 0.345))).
Proof.
  intros Ht Hi Hr.
  pose proof (respawn_time_bound p idx Ht Hr) as Htb.
  pose proof (index_range idx Hi) as [Hi0 Hi1].
  unfold respawnPosition. to_R.
  rewrite !frac_i32_Rfract by nra.
  set (u := Rfract (IZR (Z.of_N idx) * 0.5678 + time p * 0.123)).
  set (h := Rfract (IZR (Z.of_N idx) * 0.9012 + time p * 0.345)).
  unfold capRadius, capHeight.
  replace (domeCenterY p + domeRadius p * (0.5 + h * 0.35) - domeCenterY p)
    with (domeRadius p * (0.5 + h * 0.35)) by lra.
  reflexivity.
Qed.

Lemma sunkLocals_settling :
  floorBoundary settlingDome sunkLocals = (mkLocals 0 0 0 0 0 0, 1).
Proof.
  rewrite floorBoundary_below.
  - unfold sunkLocals, settlingDome.
    cbn [posX posY posZ velX velY velZ floorY restitution].
    rewrite (Rltb_false 0 0) by lra. repeat f_equal; lra.
  - unfold sunkLocals, settlingDome. cbn [posY floorY]. lra.
Qed.

Lemma respawnRand_settling : respawnRand settlingDome 1 = 0.0101.
Proof.
  rewrite respawnRand_Rfract.
  - unfold settlingDome. cbn [time Z.of_N]. rewrite Rfract_small; lra.
  - unfold settlingDome. cbn [time]. lra.
  - unfold settlingDome. cbn [time Z.of_N]. lra.
Qed.

(** C7 (over the reals). The respawn stage acts only on a particle that the
    floor stage has just put on the floor (its vertical position was below
    [floorY]) and whose speed after the boundary stages is below 0.02, and
    only when the pseudo-random value derived from the index and the time
    is below 0.05; in every other case it returns the locals it received.
    That value is the fractional part of [idx * 0.0001 + time * 10] (for a
    time that is not negative and a sum within the range of [i32]).  When
    the stage acts, the velocity becomes [(0, -0.01, 0)] and the position
    is [respawnPosition]; for a time that is not negative, an index within
    the range of [i32] and a dome of non-negative radius, that position is
    the following function of the index and the time.  With [theta] the
    fractional part of [idx * 0.1234 + time * 0.567] times 6.2832, [u] the
    fractional part of [idx * 0.5678 + time * 0.123] and [h] the fractional
    part of [idx * 0.9012 + time * 0.345], the height above the dome centre
    is [domeRadius * (0.5 + 0.35 * h)], between 50% and 85% of the radius,
    and the horizontal offset is [(sin theta * r, cos theta * r)] with
    [r = sqrt u * safeRadius]: the square of the horizontal radius is [u]
    times the square of the largest one at that height (the square-root
    transform).  The position is inside the collision sphere. *)
Theorem respawn_spec (p : SimParams R) (idx : N) (l : Locals R) :
  let st := floorBoundary p l in
  let l' := respawn p idx st in
  let n := IZR (Z.of_N idx) in
  let theta := Rfract (n * 0.1234 + time p * 0.567) * 6.2832 in
  let u := Rfract (n * 0.5678 + time p * 0.123) in
  let h := Rfract (n * 0.9012 + time p * 0.345) in
  (floorY p <= posY l \/ 0.02 <= speedOf (fst st)
   \/ 0.05 <= respawnRand p idx ->
   l' = fst st)
  /\ (0 <= time p -> n * 0.0001 + time p * 10 < 2147483648 ->
      respawnRand p idx = Rfract (n * 0.0001 + time p * 10))
  /\ (posY l < floorY p -> speedOf (fst st) < 0.02 ->
      respawnRand p idx < 0.05 ->
      velocityOf l' = d_vec3f 0 (- 0.01) 0
      /\ positionOf l' = respawnPosition p idx
      /\ (0 <= time p -> (idx < 2147483648)%N -> 0 <= domeRadius p ->
          (0 <= theta < 6.2832 /\ 0 <= u < 1 /\ 0 <= h < 1)
          /\ positionOf l' =
             d_vec3f (sin theta * capRadius p u h)
                     (domeCenterY p + capHeight p h)
                     (cos theta * capRadius p u h)
          /\ posX l' * posX l' + posZ l' * posZ l'
             = u * (capRadius p 1 h * capRadius p 1 h)
          /\ domeRadius p * 0.5 <= posY l' - domeCenterY p
             <= domeRadius p * 0.85
          /\ distanceFromCenter p l' <= collisionRadius p)).
Proof.
  intros st l' n theta u h. subst st l'. split; [|split].
  - intros Hc.
    destruct (Rlt_dec (posY l) (floorY p)) as [Hlo|Hhi].
    + rewrite (floorBoundary_below p l Hlo) in *. cbn [fst] in *.
      apply respawn_not_settled. destruct Hc as [Hc|Hc]; [lra | tauto].
    + rewrite floorBoundary_above by lra. cbn [fst].
      apply respawn_not_settled. left. lra.
  - apply respawnRand_Rfract.
  - intros Hlo. rewrite (floorBoundary_below p l Hlo). cbn [fst].
    intros Hslow Hsel.
    rewrite respawn_selected by (assumption || lra).
    split; [reflexivity|]. split.
    { destruct (respawnPosition p idx). reflexivity. }
    intros Ht Hi HR.
    pose proof (Rfract_bounds (n * 0.1234 + time p * 0.567)) as Hth.
    pose proof (Rfract_bounds (n * 0.5678 + time p * 0.123)) as Hu.
    pose proof (Rfract_bounds (n * 0.9012 + time p * 0.345)) as Hh.
    fold u in Hu. fold h in Hh.
    rewrite (respawnPosition_explicit p idx Ht Hi Hsel).
    fold n. fold theta. fold u. fold h.
    cbn [vec_x vec_y vec_z positionOf posX posY posZ].
    split; [|split; [|split; [|split]]].
    + unfold theta. repeat split; lra.
    + reflexivity.
    + rewrite horizontal_sqr.
      rewrite (capRadius_sqr p u h) by lra.
      rewrite (capRadius_sqr p 1 h) by lra. lra.
    + pose proof (capHeight_band p h HR Hh). lra.
    + apply cap_inside; assumption.
Qed.

Lemma respawn_spec_witness :
  velocityOf (respawn settlingDome 1 (floorBoundary settlingDome sunkLocals))
  = d_vec3f 0 (- 0.01) 0
  /\ positionOf
       (respawn settlingDome 1 (floorBoundary settlingDome sunkLocals))
     = d_vec3f
         (sin (0.123967 * 6.2832) * capRadius settlingDome 0.567923 0.901545)
         (0 + capHeight settlingDome 0.901545)
         (cos (0.123967 * 6.2832) * capRadius settlingDome 0.567923 0.901545)
  /\ distanceFromCenter settlingDome
       (respawn settlingDome 1 (floorBoundary settlingDome sunkLocals))
     <= collisionRadius settlingDome
  /\ respawn unitDome 0 (floorBoundary unitDome movingLocals)
     = fst (floorBoundary unitDome movingLocals).
Proof.
  destruct (respawn_spec settlingDome 1 sunkLocals) as (_ & _ & Hsel).
  destruct (respawn_spec unitDome 0 movingLocals) as (Hkeep & _).
  destruct Hsel as (Hvel & _ & Hcap).
  - unfold sunkLocals, settlingDome. cbn [posY floorY]. lra.
  - rewrite sunkLocals_settling. cbn [fst]. rewrite speedOf_rest. lra.
  - rewrite respawnRand_settling. lra.
  - destruct Hcap as (_ & Hpos & _ & _ & Hin).
    + unfold settlingDome. cbn [time]. lra.
    + reflexivity.
    + unfold settlingDome. cbn [domeRadius]. lra.
    + split; [exact Hvel|]. split; [|split].
      * rewrite Hpos.
        change (time settlingDome) with (1 / 1000).
        change (domeCenterY settlingDome) with 0.
        change (IZR (Z.of_N 1)) with 1.
        rewrite (Rfract_small (1 * 0.1234 + 1 / 1000 * 0.567)) by lra.
        rewrite (Rfract_small (1 * 0.5678 + 1 / 1000 * 0.123)) by lra.
        rewrite (Rfract_small (1 * 0.9012 + 1 / 1000 * 0.345)) by lra.
        replace (1 * 0.1234 + 1 / 1000 * 0.567) with 0.123967 by lra.
        replace (1 * 0.5678 + 1 / 1000 * 0.123) with 0.567923 by lra.
        replace (1 * 0.9012 + 1 / 1000 * 0.345) with 0.901545 by lra.
        reflexivity.
      * exact Hin.
      * apply Hkeep. left. unfold movingLocals, unitDome.
        cbn [posY floorY]. lra.
Defined.

(** ** Drag and integration *)

Lemma movingLocals_speed : speedOf movingLocals = 5.
Proof.
  unfold speedOf, movingLocals. cbn [velX velY velZ].
  replace (3 * 3 + 0 * 0 + 4 * 4) with (5 * 5) by lra.
  apply sqrt_square. lra.
Qed.

(** C8 (over the reals). The drag acceleration is
    [-velocity * dragCoeff * |velocity|]
    when the speed [|velocity|] exceeds 0.001 and is the zero vector when
    the speed is at most 0.001; the stage has no division and no other
    case. *)
Theorem dragForce_quadratic (p : SimParams R) (l : Locals R) :
  (0.001 < speedOf l ->
   dragForce p l = scale (- (dragCoeff p * speedOf l)) (velocityOf l))
  /\ (speedOf l <= 0.001 -> dragForce p l = d_vec3f 0 0 0).
Proof.
  rewrite dragForce_R. split; intros Hs.
  - rewrite Rltb_true by assumption. reflexivity.
  - rewrite Rltb_false by assumption. reflexivity.
Qed.

Lemma dragForce_quadratic_witness :
  dragForce unitDome movingLocals
  = scale (- (dragCoeff unitDome * speedOf movingLocals))
      (velocityOf movingLocals)
  /\ dragForce unitDome (mkLocals 0 0 0 0 0 0) = d_vec3f 0 0 0.
Proof.
  split.
  - apply (dragForce_quadratic unitDome movingLocals).
    rewrite movingLocals_speed. lra.
  - apply (dragForce_quadratic unitDome (mkLocals 0 0 0 0 0 0)).
    rewrite speedOf_rest. lra.
Defined.

(** C9 (over the reals). Semi-implicit Euler.  The velocity is advanced
    first, by the total
    acceleration (gravity, drag, shake and turbulence) times [deltaTime];
    the position is then advanced by the new velocity times [deltaTime].
    So the position moves by the old velocity times [deltaTime] plus the
    acceleration times [deltaTime] squared: the term that an update with
    the old velocity would not have. *)
Theorem integrate_semi_implicit (p : SimParams R) (s : Snowflake R)
    (l : Locals R) :
  let acc := totalAcceleration p s l in
  let dt := deltaTime p in
  let l' := integrate p s l in
  acc = vadd (vadd (d_vec3f 0 (- gravity p) 0) (dragForce p l))
             (vadd (d_vec3f (shakeAccelX p) (shakeAccelY p) (shakeAccelZ p))
                   (turbulenceForce p s l))
  /\ velocityOf l' = vadd (velocityOf l) (scale dt acc)
  /\ positionOf l' = vadd (positionOf l) (scale dt (velocityOf l'))
  /\ positionOf l'
     = vadd (vadd (positionOf l) (scale dt (velocityOf l)))
            (scale (dt * dt) acc).
Proof.
  intros acc dt l'. subst l'. rewrite integrate_unfold.
  fold acc. fold dt. split; [|split; [|split]].
  - unfold acc, totalAcceleration. to_R.
    apply vec3f_eq; cbn [vadd vec_x vec_y vec_z]; lra.
  - apply vec3f_eq; to_R;
      cbn [velocityOf vadd scale vec_x vec_y vec_z velX velY velZ]; ring.
  - apply vec3f_eq; to_R;
      cbn [velocityOf positionOf vadd scale vec_x vec_y vec_z
           posX posY posZ velX velY velZ]; ring.
  - apply vec3f_eq; to_R;
      cbn [velocityOf positionOf vadd scale vec_x vec_y vec_z
           posX posY posZ velX velY velZ]; ring.
Qed.

(** ** The noise function *)

(** C5. The noise value at [(1e12, 0, 0)], computed in binary32, is
    greater than 1 (it is about 3e33): the conversions to [i32] saturate
    and the supposed fractional parts are not fractions. *)
Theorem noise3DFn_far_input (sin32 cos32 : spec_float -> spec_float) :
  SFltb (b32_of_Q 1) (@noise3DFn _ (F32 sin32 cos32) farPoint32) = true.
Proof. vm_compute. reflexivity. Qed.

(** In binary32 the range is left well inside the inputs for which
    [noise3DFn_range] holds in exact arithmetic: at [(6e6, 6e6, 6e6)] the
    value is 480184320. *)
Example noise3DFn_binary32_midrange (sin32 cos32 : spec_float -> spec_float) :
  @noise3DFn _ (F32 sin32 cos32) midPoint32 = b32_of_Q 480184320.
Proof. vm_compute. reflexivity. Qed.


(** ** Further properties of the physics step *)

Lemma speed_of_scaled (l l' : Locals R) (k : R) :
  velocityOf l' = scale k (velocityOf l) ->
  speedOf l' = Rabs k * speedOf l.
Proof.
  intros Hv. unfold speedOf.
  pose proof (f_equal vec_x Hv) as Hx. pose proof (f_equal vec_y Hv) as Hy.
  pose proof (f_equal vec_z Hv) as Hz.
  cbn [velocityOf scale vec_x vec_y vec_z] in Hx, Hy, Hz.
  rewrite Hx, Hy, Hz.
  replace (k * velX l * (k * velX l) + k * velY l * (k * velY l)
           + k * velZ l * (k * velZ l))
    with (Rsqr k * (velX l * velX l + velY l * velY l + velZ l * velZ l))
    by (unfold Rsqr; ring).
  rewrite sqrt_mult; [|apply Rle_0_sqr | apply sum_sqr_nonneg].
  rewrite sqrt_Rsqr_abs. reflexivity.
Qed.

Lemma speedOf_nonneg (l : Locals R) : 0 <= speedOf l.
Proof. apply sqrt_pos. Qed.

Lemma Rabs_sin_mult (a t : R) : Rabs (sin a * t) <= Rabs t.
Proof.
  rewrite Rabs_mult. pose proof (SIN_bound a) as [Hlo Hhi].
  assert (Rabs (sin a) <= 1) by (apply Rabs_le; lra).
  pose proof (Rabs_pos t). nra.
Qed.

Lemma Rabs_cos_mult (a t : R) : Rabs (cos a * t) <= Rabs t.
Proof.
  rewrite Rabs_mult. pose proof (COS_bound a) as [Hlo Hhi].
  assert (Rabs (cos a) <= 1) by (apply Rabs_le; lra).
  pose proof (Rabs_pos t). nra.
Qed.

(** X2 (over the reals). Whatever the particle, the time and the value of
    the noise, each component of the turbulence acceleration is bounded by
    the amplitude [turbulence]: the x and z components by [|turbulence|],
    the y component by [0.3 * |turbulence|]. *)
Theorem turbulenceForce_bounded (p : SimParams R) (s : Snowflake R)
    (l : Locals R) :
  Rabs (vec_x (turbulenceForce p s l)) <= Rabs (turbulence p)
  /\ Rabs (vec_y (turbulenceForce p s l)) <= 0.3 * Rabs (turbulence p)
  /\ Rabs (vec_z (turbulenceForce p s l)) <= Rabs (turbulence p).
Proof.
  unfold turbulenceForce. to_R. cbn [vec_x vec_y vec_z].
  split; [apply Rabs_sin_mult|]. split; [|apply Rabs_sin_mult].
  rewrite Rabs_mult. rewrite (Rabs_right 0.3) by lra.
  match goal with |- Rabs (cos ?a * _) * _ <= _ =>
    pose proof (Rabs_cos_mult a (turbulence p)) end.
  lra.
Qed.

Lemma integrate_drag_only (p : SimParams R) (s : Snowflake R) (l : Locals R) :
  gravity p = 0 -> turbulence p = 0 ->
  shakeAccelX p = 0 -> shakeAccelY p = 0 -> shakeAccelZ p = 0 ->
  velocityOf (integrate p s l)
  = scale (if Rltb 0.001 (speedOf l)
           then 1 - dragCoeff p * speedOf l * deltaTime p else 1)
      (velocityOf l).
Proof.
  intros Hg Ht Hx Hy Hz. rewrite integrate_unfold.
  unfold totalAcceleration. rewrite dragForce_R.
  unfold turbulenceForce. to_R. rewrite Hg, Ht, Hx, Hy, Hz.
  destruct (Rltb 0.001 (speedOf l));
    apply vec3f_eq;
    cbn [velocityOf scale vec_x vec_y vec_z velX velY velZ]; lra.
Qed.

Lemma fastLocals_speed : speedOf fastLocals = 15.
Proof.
  unfold speedOf, fastLocals. cbn [velX velY velZ].
  replace (9 * 9 + 0 * 0 + 12 * 12) with (15 * 15) by lra.
  apply sqrt_square. lra.
Qed.

(** X3 (over the reals). With drag as the only force (no gravity, no
    turbulence, no shake), the integration multiplies the velocity by
    [1 - dragCoeff * speed * deltaTime] when the speed exceeds 0.001 and
    leaves it otherwise.  So the speed does not grow as long as
    [0 <= dragCoeff * speed * deltaTime <= 2], and it grows when that
    product exceeds 2: the explicit drag overshoots. *)
Theorem drag_only_speed (p : SimParams R) (s : Snowflake R) (l : Locals R) :
  gravity p = 0 -> turbulence p = 0 ->
  shakeAccelX p = 0 -> shakeAccelY p = 0 -> shakeAccelZ p = 0 ->
  let k := dragCoeff p * speedOf l * deltaTime p in
  speedOf (integrate p s l)
  = (if Rltb 0.001 (speedOf l) then Rabs (1 - k) else 1) * speedOf l
  /\ (0 <= k <= 2 -> speedOf (integrate p s l) <= speedOf l)
  /\ (0.001 < speedOf l -> 2 < k ->
      speedOf l < speedOf (integrate p s l)).
Proof.
  intros Hg Ht Hx Hy Hz k.
  pose proof (integrate_drag_only p s l Hg Ht Hx Hy Hz) as Hv.
  apply speed_of_scaled in Hv. fold k in Hv.
  pose proof (speedOf_nonneg l) as Hs.
  assert (Heq : speedOf (integrate p s l)
                = (if Rltb 0.001 (speedOf l) then Rabs (1 - k) else 1)
                  * speedOf l).
  { rewrite Hv. destruct (Rltb 0.001 (speedOf l)); [reflexivity|].
    rewrite Rabs_R1. reflexivity. }
  split; [exact Heq|]. split.
  - intros Hk. rewrite Heq.
    destruct (Rltb 0.001 (speedOf l)); [|lra].
    assert (Rabs (1 - k) <= 1) by (apply Rabs_le; lra). nra.
  - intros Hfast Hk. rewrite Heq, Rltb_true by assumption.
    assert (1 < Rabs (1 - k)).
    { rewrite Rabs_left by lra. lra. }
    nra.
Qed.

Lemma drag_only_speed_witness :
  speedOf (integrate dragScene restingSnowflake movingLocals)
    <= speedOf movingLocals
  /\ speedOf fastLocals
     < speedOf (integrate dragScene restingSnowflake fastLocals).
Proof.
  destruct (drag_only_speed dragScene restingSnowflake movingLocals
              eq_refl eq_refl eq_refl eq_refl eq_refl) as (_ & Hslow & _).
  destruct (drag_only_speed dragScene restingSnowflake fastLocals
              eq_refl eq_refl eq_refl eq_refl eq_refl) as (_ & _ & Hfast).
  split.
  - apply Hslow. rewrite movingLocals_speed.
    unfold dragScene. cbn [dragCoeff deltaTime]. lra.
  - apply Hfast; rewrite fastLocals_speed;
      unfold dragScene; cbn [dragCoeff deltaTime]; lra.
Defined.

Lemma reflected_dot (v n : vec3f R) (r : R) :
  dot n n = 1 ->
  dot (scale r (vsub v (scale (2 * dot v n) n))) n = - r * dot v n.
Proof.
  intros Hunit. unfold dot, scale, vsub in *.
  cbn [vec_x vec_y vec_z] in *.
  replace (r * (vec_x v - 2 * (vec_x v * vec_x n + vec_y v * vec_y n
                               + vec_z v * vec_z n) * vec_x n) * vec_x n
           + r * (vec_y v - 2 * (vec_x v * vec_x n + vec_y v * vec_y n
                                 + vec_z v * vec_z n) * vec_y n) * vec_y n
           + r * (vec_z v - 2 * (vec_x v * vec_x n + vec_y v * vec_y n
                                 + vec_z v * vec_z n) * vec_z n) * vec_z n)
    with (r * (vec_x v * vec_x n + vec_y v * vec_y n + vec_z v * vec_z n)
          * (1 - 2 * (vec_x n * vec_x n + vec_y n * vec_y n
                      + vec_z n * vec_z n))) by ring.
  rewrite Hunit. ring.
Qed.

(** A mirror image has the length of the original. *)
Lemma mirrored_norm (v n : vec3f R) :
  dot n n = 1 ->
  dot (vsub v (scale (2 * dot v n) n)) (vsub v (scale (2 * dot v n) n))
  = dot v v.
Proof.
  intros Hunit. unfold dot, scale, vsub in *.
  cbn [vec_x vec_y vec_z] in *.
  set (d := vec_x v * vec_x n + vec_y v * vec_y n + vec_z v * vec_z n) in *.
  replace ((vec_x v - 2 * d * vec_x n) * (vec_x v - 2 * d * vec_x n)
           + (vec_y v - 2 * d * vec_y n) * (vec_y v - 2 * d * vec_y n)
           + (vec_z v - 2 * d * vec_z n) * (vec_z v - 2 * d * vec_z n))
    with (vec_x v * vec_x v + vec_y v * vec_y v + vec_z v * vec_z v
          - 4 * d * (vec_x v * vec_x n + vec_y v * vec_y n
                     + vec_z v * vec_z n)
          + 4 * d * d * (vec_x n * vec_x n + vec_y n * vec_y n
                         + vec_z n * vec_z n)) by ring.
  rewrite Hunit. fold d. ring.
Qed.

Lemma speed_of_scaled_vector (l : Locals R) (w : vec3f R) (k : R) :
  velocityOf l = scale k w -> speedOf l = Rabs k * sqrt (dot w w).
Proof.
  intros Hv.
  apply (speed_of_scaled (mkLocals 0 0 0 (vec_x w) (vec_y w) (vec_z w))).
  rewrite Hv. reflexivity.
Qed.

(** X4 (over the reals). Dome stage, for a particle outside the collision
    sphere and a restitution between 0 and 1: the velocity that leaves the
    stage never points outward, the speed is never increased, and after a
    reflection the speed is exactly [restitution] times the speed before. *)
Theorem domeBoundary_never_outward (p : SimParams R) (l : Locals R) :
  0 <= domeRadius p ->
  collisionRadius p < distanceFromCenter p l ->
  0 <= restitution p <= 1 ->
  let n := outwardNormal p l in
  let l' := domeBoundary p l in
  dot (velocityOf l') n <= 0
  /\ speedOf l' <= speedOf l
  /\ (0 < dot (velocityOf l) n -> speedOf l' = restitution p * speedOf l).
Proof.
  intros HR Hout Hrest n l'. subst l'.
  pose proof (outwardNormal_unit p l (distance_pos_outside p l HR Hout))
    as Hunit. fold n in Hunit.
  pose proof (speedOf_nonneg l) as Hs.
  destruct (Rlt_dec 0 (dot (velocityOf l) n)) as [Hvn|Hvn].
  - pose proof (domeBoundary_outward_velocity p l Hout Hvn) as Hv.
    fold n in Hv.
    assert (Hspeed : speedOf (domeBoundary p l) = restitution p * speedOf l).
    { rewrite (speed_of_scaled_vector _ _ _ Hv).
      rewrite mirrored_norm by assumption.
      rewrite Rabs_right by lra. reflexivity. }
    split; [|split].
    + rewrite Hv, reflected_dot by assumption. nra.
    + rewrite Hspeed. nra.
    + intros _. exact Hspeed.
  - assert (Hvn' : dot (velocityOf l) n <= 0) by lra.
    pose proof (domeBoundary_inward_velocity p l Hout Hvn') as Hv.
    split; [|split].
    + rewrite Hv. exact Hvn'.
    + rewrite (speed_of_scaled l (domeBoundary p l) 1).
      * rewrite Rabs_R1. lra.
      * rewrite Hv. apply vec3f_eq; cbn; ring.
    + intros Hc. lra.
Qed.

Lemma domeBoundary_never_outward_witness :
  dot (velocityOf (domeBoundary unitDome outwardLocals))
      (outwardNormal unitDome outwardLocals) <= 0
  /\ speedOf (domeBoundary unitDome outwardLocals)
     = restitution unitDome * speedOf outwardLocals.
Proof.
  destruct (domeBoundary_never_outward unitDome outwardLocals)
    as (Hdot & _ & Hspeed).
  - unfold unitDome. cbn [domeRadius]. lra.
  - exact outwardLocals_outside.
  - unfold unitDome. cbn [restitution]. lra.
  - split; [exact Hdot|]. apply Hspeed, outwardLocals_moves_outward.
Defined.


Lemma boundaries_identity_inside (p : SimParams R) (l : Locals R) :
  containedLocals p l ->
  floorBoundary p (domeBoundary p l) = (l, 0).
Proof.
  intros [Hin Hfloor]. rewrite domeBoundary_inside by assumption.
  apply floorBoundary_above, Hfloor.
Qed.

(** X6 (over the reals). Floor contact with a restitution between 0 and 2:
    a particle that was below the floor leaves the stage on the floor, not
    moving downward, and not faster than it arrived. *)
Theorem floorBoundary_never_downward (p : SimParams R) (l : Locals R) :
  0 <= restitution p <= 2 ->
  posY l < floorY p ->
  let l' := fst (floorBoundary p l) in
  posY l' = floorY p /\ 0 <= velY l' /\ speedOf l' <= speedOf l.
Proof.
  intros Hrest Hlo l'. subst l'.
  rewrite (floorBoundary_below p l Hlo). cbn [fst posY velY].
  split; [reflexivity|].
  assert (Hvy : 0 <= (if Rltb (velY l) 0
                      then Rabs (velY l) * restitution p * 0.5
                      else velY l)
                <= Rabs (velY l)).
  { pose proof (Rabs_pos (velY l)).
    destruct (Rltb_spec (velY l) 0) as [Hneg|Hpos]; [nra|].
    rewrite Rabs_right by lra. lra. }
  split; [apply Hvy|].
  unfold speedOf. cbn [velX velY velZ].
  set (vy := if Rltb (velY l) 0
             then Rabs (velY l) * restitution p * 0.5 else velY l) in *.
  apply sqrt_le_1; try apply sum_sqr_nonneg.
  assert (vy * vy <= velY l * velY l).
  { assert (Rabs (velY l) * Rabs (velY l) = velY l * velY l).
    { rewrite <- Rabs_mult. apply Rabs_right. nra. }
    nra. }
  nra.
Qed.

Lemma floorBoundary_never_downward_witness :
  posY (fst (floorBoundary unitDome sunkLocals)) = floorY unitDome
  /\ 0 <= velY (fst (floorBoundary unitDome sunkLocals))
  /\ speedOf (fst (floorBoundary unitDome sunkLocals)) <= speedOf sunkLocals.
Proof.
  apply (floorBoundary_never_downward unitDome sunkLocals).
  - unfold unitDome. cbn [restitution]. lra.
  - unfold unitDome, sunkLocals. cbn [posY floorY]. lra.
Defined.

(** X26 (over the reals). Free flight: when the integrated state is inside
    the collision sphere and not below the floor, the step is the
    integration alone; the boundary stages and the respawn change
    nothing. *)
Theorem step_free_flight (p : SimParams R) (idx : N) (s : Snowflake R) :
  containedLocals p (integrate p s (readLocals s)) ->
  stepLocals p idx s = integrate p s (readLocals s).
Proof.
  intros Hin. unfold stepLocals.
  rewrite boundaries_identity_inside by assumption.
  apply respawn_not_settled. left. lra.
Qed.

Lemma step_free_flight_witness :
  stepLocals unitDome 0 restingSnowflake
  = integrate unitDome restingSnowflake (readLocals restingSnowflake).
Proof.
  apply step_free_flight.
  rewrite integrate_zero_dt by reflexivity. split.
  - rewrite restingSnowflake_distance. unfold collisionRadius, unitDome.
    cbn [domeRadius]. lra.
  - unfold unitDome, restingSnowflake, readLocals.
    cbn [floorY posY position vec_y]. lra.
Defined.


(** ** Further properties of the dispatch *)

Section DispatchEdges.
Context {F : Type} `{Scalar F}.
Implicit Types (params : SimParams F) (snowflakes : list (Snowflake F)).

Lemma runInvocations_length params gids snowflakes :
  length (runInvocations params gids snowflakes) = length snowflakes.
Proof.
  unfold runInvocations. revert snowflakes.
  induction gids as [|g gids IH]; intros buf; cbn [foldl]; [reflexivity|].
  rewrite IH. apply updateSnowflakesFn_length.
Qed.

(** X8. A dispatch of [workgroupCount] workgroups of 64 invocations
    replaces slot [i] by its image under the step exactly when [i] is below
    both [snowflakeCount] and [workgroupCount * 64], and leaves every other
    slot as it is: a dispatch of no workgroup changes nothing, surplus
    invocations do nothing, and an empty buffer stays empty. *)
Theorem dispatchWorkgroups_closed_form params (workgroupCount : N)
    snowflakes (i : nat) :
  dispatchWorkgroups params workgroupCount snowflakes !! i
  = (if decide (N.of_nat i
                < N.min (snowflakeCount params)
                        (workgroupCount * WORKGROUP_SIZE))%N
     then stepSnowflake params (N.of_nat i) <$> snowflakes !! i
     else snowflakes !! i)
  /\ dispatchWorkgroups params 0 snowflakes = snowflakes
  /\ dispatchWorkgroups params workgroupCount [] = [].
Proof.
  split; [|split].
  - unfold dispatchWorkgroups.
    rewrite runInvocations_lookup by apply invocationIds_NoDup.
    pose proof (invocationIds_elem workgroupCount i) as Helem.
    destruct (decide (N.of_nat i ∈ invocationIds workgroupCount
                      /\ (N.of_nat i < snowflakeCount params)%N))
      as [[Hin Hlt]|Hno].
    + apply Helem in Hin. rewrite decide_True by lia. reflexivity.
    + rewrite decide_False; [reflexivity|]. intros Hlt. apply Hno.
      split; [apply Helem|]; lia.
  - reflexivity.
  - apply nil_length_inv. unfold dispatchWorkgroups.
    rewrite runInvocations_length. reflexivity.
Qed.

(** X9. The number of particles is constant: whatever frames run, the
    buffer keeps its length, and a slot that holds a particle holds one
    afterwards. *)
Theorem runFrames_length (frames : list (SimParams F)) snowflakes (i : nat) :
  length (runFrames frames snowflakes) = length snowflakes
  /\ (is_Some (runFrames frames snowflakes !! i)
      <-> is_Some (snowflakes !! i)).
Proof.
  assert (Hlen : forall buf, length (runFrames frames buf) = length buf).
  { unfold runFrames. induction frames as [|p frames IH]; intros buf;
      cbn [foldl]; [reflexivity|].
    rewrite IH. apply runInvocations_length. }
  split; [apply Hlen|].
  rewrite !lookup_lt_is_Some, Hlen. reflexivity.
Qed.

(** X10. The workgroup count of the render loop is the ceiling of
    [count / 64]: a dispatch of [n] workgroups has an invocation for every
    particle exactly when [n] is at least that count, and the dispatch of
    the render loop has fewer than 64 surplus invocations. *)
Theorem workgroupCountFor_least (count n : N) :
  ((count <= n * WORKGROUP_SIZE) <-> (workgroupCountFor count <= n))%N
  /\ (workgroupCountFor count * WORKGROUP_SIZE < count + WORKGROUP_SIZE)%N.
Proof.
  unfold workgroupCountFor, WORKGROUP_SIZE.
  pose proof (N.div_mod (count + 64 - 1) 64) as Hdm.
  pose proof (N.mod_lt (count + 64 - 1) 64).
  set (q := ((count + 64 - 1) / 64)%N) in *.
  set (r := ((count + 64 - 1) mod 64)%N) in *.
  split; [split|]; nia.
Qed.

End DispatchEdges.


(** ** The render loop *)

Lemma renderLoop_snoc (nows : list R) (now : R) (st : RenderState) :
  renderLoop (nows ++ [now]) st = render now (renderLoop nows st).
Proof. unfold renderLoop. rewrite foldl_app. reflexivity. Qed.

Lemma render_step_bounds (now : R) (st : RenderState) :
  lastTime st <= now ->
  0 <= totalTime (render now st) - totalTime st <= 0.1
  /\ totalTime (render now st) - totalTime st
     <= (lastTime (render now st) - lastTime st) / 1000
  /\ cameraAngle (render now st) - cameraAngle st
     = 0.1 * (totalTime (render now st) - totalTime st).
Proof.
  intros Hclock. unfold render.
  cbn [totalTime lastTime cameraAngle]. unfold CONFIG.CAMERA_ROTATION_SPEED.
  pose proof (Rmin_l ((now - lastTime st) / 1000) 0.1).
  pose proof (Rmin_r ((now - lastTime st) / 1000) 0.1).
  assert (0 <= Rmin ((now - lastTime st) / 1000) 0.1)
    by (apply Rmin_glb; lra).
  repeat split; lra.
Qed.

Lemma renderLoop_clock (nows : list R) (st : RenderState) :
  clockFrom (lastTime st) nows ->
  let st' := renderLoop nows st in
  lastTime st <= lastTime st'
  /\ 0 <= totalTime st' - totalTime st <= 0.1 * INR (length nows)
  /\ totalTime st' - totalTime st <= (lastTime st' - lastTime st) / 1000
  /\ cameraAngle st' - cameraAngle st
     = 0.1 * (totalTime st' - totalTime st).
Proof.
  revert st. induction nows as [|now rest IH]; intros st Hclock.
  - cbn. repeat split; lra.
  - destruct Hclock as [Hnow Hrest].
    change (renderLoop (now :: rest) st)
      with (renderLoop rest (render now st)).
    destruct (render_step_bounds now st Hnow) as (Hdt & Hwall & Hcam).
    specialize (IH (render now st) Hrest).
    cbv zeta in IH. destruct IH as (Hl & Ht & Hw & Hc).
    cbv zeta. change (length (now :: rest)) with (S (length rest)).
    rewrite S_INR.
    assert (Hlast : lastTime (render now st) = now) by reflexivity.
    rewrite Hlast in *.
    repeat split; lra.
Qed.

(** X11 (JavaScript numbers read as reals). The clock of the animation:
    as long as [performance.now()] does not run backwards, the simulation
    time never decreases, advances by at most 0.1 s per frame, never
    advances more than the wall clock did (in seconds), and the camera
    angle advances by 0.1 radians per second of simulation time. *)
Theorem renderLoop_time (nows : list R) (st : RenderState) :
  clockFrom (lastTime st) nows ->
  let st' := renderLoop nows st in
  0 <= totalTime st' - totalTime st <= 0.1 * INR (length nows)
  /\ totalTime st' - totalTime st <= (lastTime st' - lastTime st) / 1000
  /\ cameraAngle st' - cameraAngle st
     = CONFIG.CAMERA_ROTATION_SPEED * (totalTime st' - totalTime st).
Proof.
  intros Hclock.
  destruct (renderLoop_clock nows st Hclock) as (_ & Ht & Hw & Hc).
  cbv zeta. unfold CONFIG.CAMERA_ROTATION_SPEED. repeat split; lra.
Qed.

Lemma renderLoop_time_witness :
  0 <= totalTime (renderLoop [1000; 1016; 5000]
                    (mkRenderState 1000 0 0 [restingSnowflake])) - 0
    <= 0.1 * INR 3.
Proof.
  apply (renderLoop_time [1000; 1016; 5000]
           (mkRenderState 1000 0 0 [restingSnowflake])).
  cbn. repeat split; lra.
Defined.

Lemma frameParams_valid (t dt : R) : 0 <= t -> validScene (frameParams t dt).
Proof.
  intros Ht. unfold validScene, frameParams.
  cbn [domeRadius floorY domeCenterY time snowflakeCount].
  unfold CONFIG.DOME_RADIUS, CONFIG.FLOOR_Y, CONFIG.DOME_CENTER_Y,
    CONFIG.SNOWFLAKE_COUNT.
  repeat split; try lra. lia.
Qed.

(** X12 (over the reals). The render loop keeps the snowflakes in the
    dome: with the values of [config.ts], a clock that does not run
    backwards and a simulation time that starts non-negative, after every
    frame each of the 3000 snowflakes is at distance at most
    [0.7 * 0.95 = 0.665] from the dome centre [(0, 0.35, 0)] and not below
    the floor [y = -0.15], whatever the buffer held before. *)
Theorem renderLoop_contained (nows : list R) (now : R) (st : RenderState)
    (i : nat) (s : Snowflake R) :
  clockFrom (lastTime st) (nows ++ [now]) ->
  0 <= totalTime st ->
  (N.of_nat i < CONFIG.SNOWFLAKE_COUNT)%N ->
  snowflakeBuffer (renderLoop (nows ++ [now]) st) !! i = Some s ->
  sqrt (vec_x (position s) * vec_x (position s)
        + (vec_y (position s) - 0.35) * (vec_y (position s) - 0.35)
        + vec_z (position s) * vec_z (position s)) <= 0.665
  /\ - 0.15 <= vec_y (position s).
Proof.
  intros Hclock Ht0 Hi. rewrite renderLoop_snoc.
  set (st1 := renderLoop nows st).
  assert (Hclock1 : clockFrom (lastTime st) nows /\ lastTime st1 <= now).
  { clear -Hclock. subst st1. revert st Hclock.
    induction nows as [|n rest IH]; intros st Hclock.
    - cbn in *. tauto.
    - destruct Hclock as [Hn Hrest].
      change (renderLoop (n :: rest) st)
        with (renderLoop rest (render n st)).
      destruct (IH (render n st) Hrest) as [Hc Hl].
      split; [split; assumption | exact Hl]. }
  destruct Hclock1 as [Hcl Hlast].
  destruct (renderLoop_clock nows st Hcl) as (_ & Ht & _ & _).
  fold st1 in Ht.
  destruct (render_step_bounds now st1 Hlast) as (Hdt & _ & _).
  unfold render in *. cbn [snowflakeBuffer totalTime] in *.
  set (dt := Rmin ((now - lastTime st1) / 1000) 0.1) in *.
  rewrite dispatchWorkgroups_lookup by exact Hi.
  destruct (snowflakeBuffer st1 !! i) as [s0|]; [|discriminate].
  intros [= <-].
  assert (Hv : validScene (frameParams (totalTime st1 + dt) dt))
    by (apply frameParams_valid; lra).
  pose proof (stepSnowflake_contained _ (N.of_nat i) s0 Hv Hi) as [Hd Hf].
  unfold distanceFromCenter, collisionRadius, frameParams in Hd, Hf.
  cbn [domeRadius domeCenterY floorY] in Hd, Hf.
  unfold CONFIG.DOME_RADIUS, CONFIG.DOME_CENTER_Y, CONFIG.FLOOR_Y in Hd, Hf.
  unfold readLocals in Hd, Hf. cbn [posX posY posZ] in Hd, Hf.
  split; [|exact Hf].
  eapply Rle_trans; [|eapply Rle_trans; [exact Hd|lra]].
  apply Req_le. f_equal. 
Qed.


Lemma seeded_distance (c theta r cy : R) :
  -1 <= c <= 1 -> 0 <= r ->
  sqrt (sqrt (1 - c * c) * cos theta * r * (sqrt (1 - c * c) * cos theta * r)
        + (c * r + cy - cy) * (c * r + cy - cy)
        + sqrt (1 - c * c) * sin theta * r
          * (sqrt (1 - c * c) * sin theta * r))
  = r.
Proof.
  intros Hc Hr.
  assert (Hs : sqrt (1 - c * c) * sqrt (1 - c * c) = 1 - c * c)
    by (apply sqrt_sqrt; nra).
  pose proof (sin2_cos2 theta) as Hsc. unfold Rsqr in Hsc.
  set (q := sqrt (1 - c * c)) in *.
  replace (q * cos theta * r * (q * cos theta * r)
           + (c * r + cy - cy) * (c * r + cy - cy)
           + q * sin theta * r * (q * sin theta * r))
    with ((q * q * (sin theta * sin theta + cos theta * cos theta) + c * c)
          * (r * r)) by ring.
  rewrite Hsc, Hs.
  replace ((1 - c * c) * 1 + c * c) with 1 by ring.
  rewrite Rmult_1_l. apply sqrt_square, Hr.
Qed.

Lemma initialSnowflake_wellSeeded (cbrt : R -> R) (random : nat -> R) :
  (forall u, 0 <= u < 1 -> 0 <= cbrt u <= 1) ->
  (forall k, 0 <= random k < 1) ->
  wellSeeded (initialSnowflake cbrt random).
Proof.
  intros Hcbrt Hrnd. unfold wellSeeded, initialSnowflake.
  cbn [velocity size phase alpha vec_x vec_y vec_z].
  unfold CONFIG.GRAVITY, CONFIG.SNOWFLAKE_SIZE_MIN, CONFIG.SNOWFLAKE_SIZE_MAX.
  pose proof (Hrnd 1%nat). pose proof (Hrnd 3%nat). pose proof (Hrnd 4%nat).
  pose proof (Hrnd 5%nat). pose proof (Hrnd 6%nat). pose proof (Hrnd 7%nat).
  pose proof (Hrnd 8%nat). pose proof (Hcbrt _ (Hrnd 2%nat)) as Hr.
  pose proof PI_RGT_0.
  split; [|repeat split; try (apply Rabs_le); try nra].
  unfold distanceFromCenter, readLocals, frameParams.
  cbn [posX posY posZ position vec_x vec_y vec_z domeCenterY].
  unfold CONFIG.DOME_RADIUS, CONFIG.DOME_CENTER_Y.
  rewrite seeded_distance; nra.
Qed.

(** X13 (JavaScript numbers read as reals). The initial population: when
    [Math.random] returns values in [[0, 1)] (and [Math.cbrt] maps them
    into [[0, 1]]), there are 3000 initial snowflakes and each is within
    [0.7 * 0.85 = 0.595] of the dome centre, hence inside the collision
    sphere; it falls with vertical velocity between -0.015 and -0.0075 and
    horizontal components of at most 0.05; size, phase and opacity are in
    their ranges. *)
Theorem generateInitialSnowflakes_wellSeeded (cbrt : R -> R)
    (random : nat -> R) :
  (forall u, 0 <= u < 1 -> 0 <= cbrt u <= 1) ->
  (forall k, 0 <= random k < 1) ->
  length (generateInitialSnowflakes cbrt random) = 3000%nat
  /\ Forall wellSeeded (generateInitialSnowflakes cbrt random)
  /\ Forall (fun s => distanceFromCenter (frameParams 0 0) (readLocals s)
                      <= collisionRadius (frameParams 0 0))
       (generateInitialSnowflakes cbrt random).
Proof.
  intros Hcbrt Hrnd. unfold generateInitialSnowflakes.
  assert (Hall : Forall wellSeeded
            (map (fun i => initialSnowflake cbrt
                             (fun k => random (10 * i + k)%nat))
                 (seq 0 (N.to_nat CONFIG.SNOWFLAKE_COUNT)))).
  { apply Forall_forall. intros s Hin.
    apply list_elem_of_In, in_map_iff in Hin. destruct Hin as (i & <- & _).
    apply initialSnowflake_wellSeeded; [assumption|].
    intros k. apply Hrnd. }
  split; [|split].
  - rewrite length_map, length_seq. reflexivity.
  - exact Hall.
  - eapply Forall_impl; [exact Hall|].
    intros s (Hd & _). eapply Rle_trans; [exact Hd|].
    unfold collisionRadius, frameParams. cbn [domeRadius].
    unfold CONFIG.DOME_RADIUS. lra.
Qed.

Lemma generateInitialSnowflakes_wellSeeded_witness :
  Forall wellSeeded
    (generateInitialSnowflakes (fun u => u) (fun _ => 1 / 2)).
Proof.
  apply (generateInitialSnowflakes_wellSeeded (fun u => u) (fun _ => 1 / 2)).
  - intros u Hu. lra.
  - intros k. lra.
Defined.

Lemma renderLoop_contained_witness :
  let dt := Rmin ((1016 - 1000) / 1000) 0.1 in
  let s := stepSnowflake (frameParams (0 + dt) dt) 0 outsideSnowflake in
  sqrt (vec_x (position s) * vec_x (position s)
        + (vec_y (position s) - 0.35) * (vec_y (position s) - 0.35)
        + vec_z (position s) * vec_z (position s)) <= 0.665
  /\ - 0.15 <= vec_y (position s).
Proof.
  intros dt s.
  apply (renderLoop_contained [] 1016
           (mkRenderState 1000 0 0 [outsideSnowflake]) 0 s).
  - cbn. repeat split; lra.
  - cbn. lra.
  - reflexivity.
  - rewrite renderLoop_snoc. unfold renderLoop, render.
    cbn [foldl snowflakeBuffer lastTime totalTime].
    rewrite dispatchWorkgroups_lookup by reflexivity. reflexivity.
Defined.


(** ** The shading functions of [common.ts] *)

Ltac to_R_builtins :=
  cbn [fadd fsub fmul fdiv fsqrt fsin fcos fabs fltb lit
       f32_of_u32 f32_of_i32 i32_of_f32 R_scalar
       fmax fmin fpow fexp fsmoothstep ffract fleb R_builtins].

Lemma Rpow_unit_interval (b e : R) :
  0 <= b <= 1 -> 0 < e -> 0 <= Rpow b e <= 1.
Proof.
  intros Hb He. unfold Rpow. destruct (Rlt_dec 0 b) as [Hpos|Hzero]; [|lra].
  unfold Rpower. split; [left; apply exp_pos|].
  rewrite <- exp_0.
  destruct (Req_dec b 1) as [->|Hne].
  - rewrite ln_1, Rmult_0_r. lra.
  - left. apply exp_increasing.
    assert (ln b < 0) by (rewrite <- ln_1; apply ln_increasing; lra).
    nra.
Qed.

Lemma Rpow_zero (e : R) : Rpow 0 e = 0.
Proof. unfold Rpow. destruct (Rlt_dec 0 0); [lra | reflexivity]. Qed.

Lemma Rpow_one (e : R) : Rpow 1 e = 1.
Proof.
  unfold Rpow. destruct (Rlt_dec 0 1); [|lra].
  unfold Rpower. rewrite ln_1, Rmult_0_r. apply exp_0.
Qed.

Lemma cos_unit (a : R) : 0 <= 0.5 + 0.5 * cos a <= 1.
Proof. pose proof (COS_bound a). lra. Qed.

(** X14 (over the reals). The thin-film tint is bounded for every input:
    each of its three channels lies between 0 and 0.08. *)
Theorem thinFilmIridescenceFn_range (cosTheta : R) :
  0 <= vec_x (thinFilmIridescenceFn cosTheta) <= 0.08
  /\ 0 <= vec_y (thinFilmIridescenceFn cosTheta) <= 0.08
  /\ 0 <= vec_z (thinFilmIridescenceFn cosTheta) <= 0.08.
Proof.
  unfold thinFilmIridescenceFn. to_R. cbn [vec_x vec_y vec_z].
  repeat match goal with
  | |- context [cos ?a] =>
      lazymatch goal with
      | _ : 0 <= 0.5 + 0.5 * cos a <= 1 |- _ => fail
      | _ => pose proof (cos_unit a)
      end
  end.
  repeat split; nra.
Qed.

Lemma schlickR0_range (ior : R) : 0 <= ior -> 0 <= schlickR0 ior <= 1.
Proof.
  intros Hior. unfold schlickR0.
  set (b := (1 - ior) / (1 + ior)).
  assert (Hb : b * (1 + ior) = 1 - ior) by (unfold b; field; lra).
  assert (-1 <= b <= 1) by (split; nra).
  split; nra.
Qed.

Lemma grazing_factor (d e : R) :
  d <= 1 -> 0 < e -> 0 <= Rpow (1 - Rmax d 0) e <= 1.
Proof.
  intros Hd He. apply Rpow_unit_interval; [|assumption].
  pose proof (Rmax_l d 0). pose proof (Rmax_r d 0).
  assert (Rmax d 0 <= 1) by (apply Rmax_lub; lra). lra.
Qed.

Lemma fresnelFn_R (viewDir normal : vec3f R) (ior : R) :
  fresnelFn viewDir normal ior
  = schlickR0 ior
    + (1 - schlickR0 ior) * Rpow (1 - Rmax (dot viewDir normal) 0) 5.
Proof.
  unfold fresnelFn, schlickR0. to_R_builtins.
  change (dot3 viewDir normal) with (dot viewDir normal).
  replace (Q2R 1.0) with 1 by lra. replace (Q2R 0.0) with 0 by lra.
  replace (Q2R 5.0) with 5 by lra. reflexivity.
Qed.

Lemma doubleLayerFresnelFn_R (viewDir normal : vec3f R) (ior : R) :
  doubleLayerFresnelFn viewDir normal ior
  = fresnelFn viewDir normal ior
    + Rpow (1 - Rmax (dot viewDir normal) 0) 3 * 0.15.
Proof.
  rewrite fresnelFn_R. unfold doubleLayerFresnelFn, schlickR0. to_R_builtins.
  change (dot3 viewDir normal) with (dot viewDir normal).
  replace (Q2R 1.0) with 1 by lra. replace (Q2R 0.0) with 0 by lra.
  replace (Q2R 5.0) with 5 by lra. replace (Q2R 3.0) with 3 by lra.
  reflexivity.
Qed.

(** X15 (over the reals). Schlick's approximation in [fresnelFn]: for an
    index of refraction that is not negative and directions whose dot
    product is at most 1 (unit vectors), the result lies between the
    reflectance at normal incidence [r0 = ((1 - ior) / (1 + ior))^2] and 1;
    it is [r0] when the directions coincide and 1 when the surface is seen
    edge-on or from behind. *)
Theorem fresnelFn_range (viewDir normal : vec3f R) (ior : R) :
  0 <= ior ->
  dot viewDir normal <= 1 ->
  0 <= schlickR0 ior <= fresnelFn viewDir normal ior
  /\ fresnelFn viewDir normal ior <= 1
  /\ (dot viewDir normal = 1 -> fresnelFn viewDir normal ior = schlickR0 ior)
  /\ (dot viewDir normal <= 0 -> fresnelFn viewDir normal ior = 1).
Proof.
  intros Hior Hd. rewrite fresnelFn_R.
  pose proof (schlickR0_range ior Hior) as Hr0.
  pose proof (grazing_factor (dot viewDir normal) 5 Hd) as Hp.
  specialize (Hp ltac:(lra)).
  split; [split; [lra | nra]|]. split; [nra|]. split.
  - intros ->. rewrite Rmax_left by lra.
    replace (1 - 1) with 0 by lra. rewrite Rpow_zero. lra.
  - intros Hback. rewrite Rmax_right by lra.
    replace (1 - 0) with 1 by lra. rewrite Rpow_one. lra.
Qed.

Lemma fresnelFn_range_witness :
  fresnelFn zAxis zAxis 1.5 = schlickR0 1.5
  /\ fresnelFn zAxis xAxis 1.5 = 1.
Proof.
  assert (Hzz : dot zAxis zAxis = 1)
    by (unfold dot, zAxis; cbn [vec_x vec_y vec_z]; lra).
  assert (Hzx : dot zAxis xAxis = 0)
    by (unfold dot, zAxis, xAxis; cbn [vec_x vec_y vec_z]; lra).
  split.
  - apply (fresnelFn_range zAxis zAxis 1.5); lra.
  - apply (fresnelFn_range zAxis xAxis 1.5); lra.
Defined.

(** X16 (over the reals). [doubleLayerFresnelFn] adds
    [0.15 * (1 - cosTheta)^3] to the result of [fresnelFn]: under the same
    conditions it is at least the single-layer value and at most 1.15, and
    it is not a fraction: it is exactly 1.15 when the surface is seen
    edge-on or from behind. *)
Theorem doubleLayerFresnelFn_range (viewDir normal : vec3f R) (ior : R) :
  0 <= ior ->
  dot viewDir normal <= 1 ->
  fresnelFn viewDir normal ior <= doubleLayerFresnelFn viewDir normal ior
  /\ doubleLayerFresnelFn viewDir normal ior <= 1.15
  /\ (dot viewDir normal <= 0 ->
      doubleLayerFresnelFn viewDir normal ior = 1.15).
Proof.
  intros Hior Hd. rewrite doubleLayerFresnelFn_R.
  pose proof (grazing_factor (dot viewDir normal) 3 Hd) as Hp.
  specialize (Hp ltac:(lra)).
  assert (Hf : fresnelFn viewDir normal ior <= 1).
  { rewrite fresnelFn_R.
    pose proof (schlickR0_range ior Hior).
    pose proof (grazing_factor (dot viewDir normal) 5 Hd ltac:(lra)). nra. }
  split; [lra|]. split; [lra|].
  intros Hback. rewrite fresnelFn_R. rewrite !Rmax_right by lra.
  replace (1 - 0) with 1 by lra. rewrite !Rpow_one. lra.
Qed.

Lemma doubleLayerFresnelFn_range_witness :
  doubleLayerFresnelFn zAxis xAxis 1.5 = 1.15.
Proof.
  assert (Hzx : dot zAxis xAxis = 0)
    by (unfold dot, zAxis, xAxis; cbn [vec_x vec_y vec_z]; lra).
  apply (doubleLayerFresnelFn_range zAxis xAxis 1.5); lra.
Defined.

(** X17 (over the reals). The rim light is the rim colour times a factor
    between 0 and 1, for unit directions and a positive [rimPower]: it
    vanishes where the normal points at the viewer and is the full rim
    colour where the surface is seen edge-on or from behind. *)
Theorem rimLightFn_range (normal viewDir rimColor : vec3f R) (rimPower : R) :
  dot normal viewDir <= 1 ->
  0 < rimPower ->
  (exists k, 0 <= k <= 1
             /\ rimLightFn normal viewDir rimColor rimPower
                = scale k rimColor)
  /\ (dot normal viewDir = 1 ->
      rimLightFn normal viewDir rimColor rimPower = d_vec3f 0 0 0)
  /\ (dot normal viewDir <= 0 ->
      rimLightFn normal viewDir rimColor rimPower = rimColor).
Proof.
  intros Hd Hp. unfold rimLightFn. to_R_builtins.
  change (dot3 normal viewDir) with (dot normal viewDir).
  replace (Q2R 1.0) with 1 by lra. replace (Q2R 0.0) with 0 by lra.
  split; [|split].
  - exists (Rpow (1 - Rmax (dot normal viewDir) 0) rimPower).
    split; [apply grazing_factor; assumption|].
    apply vec3f_eq; cbn [scale vec_x vec_y vec_z]; ring.
  - intros ->. rewrite Rmax_left by lra.
    replace (1 - 1) with 0 by lra. rewrite Rpow_zero.
    apply vec3f_eq; cbn [vec_x vec_y vec_z]; ring.
  - intros Hback. rewrite Rmax_right by lra.
    replace (1 - 0) with 1 by lra. rewrite Rpow_one.
    apply vec3f_eq; cbn [vec_x vec_y vec_z]; ring.
Qed.

Lemma rimLightFn_range_witness :
  rimLightFn zAxis zAxis xAxis 2.5 = d_vec3f 0 0 0
  /\ rimLightFn zAxis xAxis xAxis 2.5 = xAxis.
Proof.
  assert (Hzz : dot zAxis zAxis = 1)
    by (unfold dot, zAxis; cbn [vec_x vec_y vec_z]; lra).
  assert (Hzx : dot zAxis xAxis = 0)
    by (unfold dot, zAxis, xAxis; cbn [vec_x vec_y vec_z]; lra).
  split.
  - apply (rimLightFn_range zAxis zAxis xAxis 2.5); lra.
  - apply (rimLightFn_range zAxis xAxis xAxis 2.5); lra.
Defined.

Lemma Rpow_nonneg (b e : R) : 0 <= Rpow b e.
Proof.
  unfold Rpow. destruct (Rlt_dec 0 b); [|lra].
  left. apply exp_pos.
Qed.

(** X18 (over the reals). The environment colour is never darker than the
    ceiling colour: for every direction whose vertical component is between
    -1 and 1, red is at least 0.15, green at least 0.12 and blue at least
    0.1; and straight down it is the colour of the table,
    [(0.4, 0.25, 0.1)]. *)
Theorem sampleEnvironmentFn_floor (dir : vec3f R) :
  -1 <= vec_y dir <= 1 ->
  (0.15 <= vec_x (sampleEnvironmentFn dir)
   /\ 0.12 <= vec_y (sampleEnvironmentFn dir)
   /\ 0.1 <= vec_z (sampleEnvironmentFn dir))
  /\ (dir = d_vec3f 0 (-1) 0 ->
      sampleEnvironmentFn dir = d_vec3f 0.4 0.25 0.1).
Proof.
  intros Hy. split.
  - unfold sampleEnvironmentFn. to_R_builtins. cbn [vec_x vec_y vec_z].
    repeat match goal with
    | |- context [Rpow ?b ?e] =>
        lazymatch goal with
        | _ : 0 <= Rpow b e |- _ => fail
        | _ => pose proof (Rpow_nonneg b e)
        end
    end.
    match goal with
    | |- context [Rmax (Q2R 0 - vec_z dir) ?z] =>
        pose proof (Rmax_r (Q2R 0 - vec_z dir) z)
    end.
    repeat split; nra.
  - intros ->. unfold sampleEnvironmentFn. to_R_builtins.
    cbn [vec_x vec_y vec_z].
    replace (0 * 0.6 + -1 * 0.5 + 0 * 0.6) with (- 0.5) by lra.
    replace (Q2R 0 - 0) with 0 by lra.
    rewrite !Rmax_right by lra.
    replace (Q2R 0.0) with 0 by lra. rewrite !Rpow_zero.
    apply vec3f_eq; cbn [vec_x vec_y vec_z]; lra.
Qed.

Lemma sampleEnvironmentFn_floor_witness :
  sampleEnvironmentFn (d_vec3f 0 (-1) 0) = d_vec3f 0.4 0.25 0.1.
Proof.
  apply (sampleEnvironmentFn_floor (d_vec3f 0 (-1) 0)).
  - cbn [vec_y]. lra.
  - reflexivity.
Defined.


(** ** The dome mesh *)

Lemma getVertex_onSphere (radius : R) (segments rings : nat) (centerY : R)
    (segIdx ringIdx : nat) :
  onSphere radius centerY
    (getVertex radius segments rings centerY segIdx ringIdx).
Proof.
  unfold onSphere, getVertex. cbn [vertexNormal vertexPosition].
  split.
  - unfold dot. cbn [vec_x vec_y vec_z].
    set (theta := INR segIdx / INR segments * PI * 2).
    set (phi := INR ringIdx / INR rings * PI - PI / 2).
    pose proof (sin2_cos2 theta) as Ht. pose proof (sin2_cos2 phi) as Hp.
    unfold Rsqr in Ht, Hp.
    replace (cos theta * cos phi * (cos theta * cos phi)
             + sin phi * sin phi
             + sin theta * cos phi * (sin theta * cos phi))
      with ((sin theta * sin theta + cos theta * cos theta)
            * (cos phi * cos phi) + sin phi * sin phi) by ring.
    rewrite Ht. lra.
  - apply vec3f_eq; cbn [vadd scale vec_x vec_y vec_z]; ring.
Qed.

Lemma onSphere_distance (radius centerY : R) (v : DomeVertex) :
  onSphere radius centerY v -> vertexDistance centerY v = Rabs radius.
Proof.
  intros [Hunit Hpos]. unfold vertexDistance. rewrite Hpos.
  cbn [vadd scale vec_x vec_y vec_z]. unfold dot in Hunit.
  set (n := vertexNormal v) in *.
  replace ((0 + radius * vec_x n) * (0 + radius * vec_x n)
           + (centerY + radius * vec_y n - centerY)
             * (centerY + radius * vec_y n - centerY)
           + (0 + radius * vec_z n) * (0 + radius * vec_z n))
    with (Rsqr radius * (vec_x n * vec_x n + vec_y n * vec_y n
                         + vec_z n * vec_z n)) by (unfold Rsqr; ring).
  rewrite Hunit, Rmult_1_r. apply sqrt_Rsqr_abs.
Qed.

Lemma sphereCell_Forall (P : DomeVertex -> Prop) (radius : R)
    (segments rings : nat) (centerY : R) (ring seg : nat) :
  (forall i j, P (getVertex radius segments rings centerY i j)) ->
  Forall P (sphereCell radius segments rings centerY ring seg).
Proof. intros HP. unfold sphereCell. repeat constructor; apply HP. Qed.

Lemma generateSphereVertices_Forall (P : DomeVertex -> Prop) (radius : R)
    (segments rings : nat) (centerY : R) :
  (forall i j, P (getVertex radius segments rings centerY i j)) ->
  Forall P (generateSphereVertices radius segments rings centerY).
Proof.
  intros HP. unfold generateSphereVertices.
  apply Forall_forall. intros v Hin.
  apply list_elem_of_In, in_flat_map in Hin. destruct Hin as (ring & _ & Hin).
  apply in_flat_map in Hin. destruct Hin as (seg & _ & Hin).
  pose proof (sphereCell_Forall P radius segments rings centerY ring seg HP)
    as Hcell.
  rewrite Forall_forall in Hcell. apply Hcell, list_elem_of_In, Hin.
Qed.

Lemma flat_map_constant_length {A B : Type} (f : A -> list B) (n : nat)
    (l : list A) :
  (forall a, length (f a) = n) ->
  length (flat_map f l) = (n * length l)%nat.
Proof.
  intros Hf. induction l as [|a l IH]; cbn [flat_map length]; [lia|].
  rewrite length_app, Hf, IH. lia.
Qed.

(** X19. The sphere mesh has six vertices (two triangles) for each of the
    [rings * segments] cells; the dome of the scene has 4608. *)
Theorem generateSphereVertices_length (radius : R) (segments rings : nat)
    (centerY : R) :
  length (generateSphereVertices radius segments rings centerY)
  = (6 * segments * rings)%nat
  /\ length generateDomeVertices = 4608%nat.
Proof.
  assert (Hlen : forall r s q c,
            length (generateSphereVertices r s q c) = (6 * s * q)%nat).
  { intros r s q c. unfold generateSphereVertices.
    rewrite (flat_map_constant_length _ (6 * s)).
    - rewrite length_seq. reflexivity.
    - intros ring. rewrite (flat_map_constant_length _ 6).
      + rewrite length_seq. reflexivity.
      + intros seg. reflexivity. }
  split; [apply Hlen|]. unfold generateDomeVertices. rewrite Hlen.
  reflexivity.
Qed.

(** X20 (JavaScript numbers read as reals). Every vertex of the sphere
    mesh has a unit normal and lies at the radius along it from the centre
    [(0, centerY, 0)], so at distance [|radius|] from the centre, for any
    numbers of segments and rings. *)
Theorem generateSphereVertices_onSphere (radius : R) (segments rings : nat)
    (centerY : R) :
  Forall (fun v => onSphere radius centerY v
                   /\ vertexDistance centerY v = Rabs radius)
         (generateSphereVertices radius segments rings centerY).
Proof.
  apply generateSphereVertices_Forall. intros i j.
  pose proof (getVertex_onSphere radius segments rings centerY i j) as Hon.
  split; [exact Hon | apply onSphere_distance, Hon].
Qed.

(** X21 (JavaScript numbers read as reals). The mesh closes at the poles
    and along the seam: with at least one ring, the lower edge of the first
    ring is the single point [(0, centerY - radius, 0)] and the upper edge
    of the last ring the single point [(0, centerY + radius, 0)]; and in
    every ring the right edge of the last cell is the left edge of the
    first. *)
Theorem generateSphereVertices_closed (radius : R) (segments rings : nat)
    (centerY : R) (segIdx ring : nat) :
  (0 < rings)%nat ->
  (0 < segments)%nat ->
  vertexPosition (getVertex radius segments rings centerY segIdx 0)
  = d_vec3f 0 (centerY - radius) 0
  /\ vertexPosition (getVertex radius segments rings centerY segIdx rings)
     = d_vec3f 0 (centerY + radius) 0
  /\ sphereCell radius segments rings centerY ring (segments - 1) !! 1%nat
     = sphereCell radius segments rings centerY ring 0 !! 0%nat
  /\ sphereCell radius segments rings centerY ring (segments - 1) !! 4%nat
     = sphereCell radius segments rings centerY ring 0 !! 2%nat.
Proof.
  intros Hrings Hsegs.
  assert (Hr : INR rings <> 0) by (apply not_0_INR; lia).
  split; [|split; [|split]].
  - unfold getVertex. cbn [vertexPosition].
    replace (INR 0 / INR rings * PI - PI / 2) with (- (PI / 2))
      by (cbn [INR]; field; exact Hr).
    rewrite cos_neg, sin_neg, cos_PI2, sin_PI2.
    apply vec3f_eq; cbn [vec_x vec_y vec_z]; ring.
  - unfold getVertex. cbn [vertexPosition].
    replace (INR rings / INR rings * PI - PI / 2) with (PI / 2)
      by (field; exact Hr).
    rewrite cos_PI2, sin_PI2.
    apply vec3f_eq; cbn [vec_x vec_y vec_z]; ring.
  - unfold sphereCell. cbn [lookup list_lookup].
    replace ((segments - 1 + 1) mod segments)%nat with 0%nat
      by (replace (segments - 1 + 1)%nat with segments by lia;
          symmetry; apply Nat.Div0.mod_same).
    reflexivity.
  - unfold sphereCell. cbn [lookup list_lookup].
    replace ((segments - 1 + 1) mod segments)%nat with 0%nat
      by (replace (segments - 1 + 1)%nat with segments by lia;
          symmetry; apply Nat.Div0.mod_same).
    reflexivity.
Qed.

Lemma generateSphereVertices_closed_witness :
  vertexPosition (getVertex CONFIG.DOME_RADIUS 32 24 CONFIG.DOME_CENTER_Y 5 0)
  = d_vec3f 0 (CONFIG.DOME_CENTER_Y - CONFIG.DOME_RADIUS) 0
  /\ sphereCell CONFIG.DOME_RADIUS 32 24 CONFIG.DOME_CENTER_Y 3 (32 - 1)
       !! 1%nat
     = sphereCell CONFIG.DOME_RADIUS 32 24 CONFIG.DOME_CENTER_Y 3 0 !! 0%nat.
Proof.
  destruct (generateSphereVertices_closed CONFIG.DOME_RADIUS 32 24
              CONFIG.DOME_CENTER_Y 5 3) as (Hsouth & _ & Hseam & _);
    [lia | lia |].
  split; [exact Hsouth | exact Hseam].
Defined.

(** X22 (over the reals). The glass is outside the snow: every vertex of
    the dome mesh is at distance 0.7 from the dome centre, and a snowflake
    that is contained (as it is after every step of a valid scene with the
    values of [config.ts]) is strictly closer to the centre than every
    vertex of the mesh. *)
Theorem dome_vertices_beyond_snow (t dt : R) (s : Snowflake R) :
  contained (frameParams t dt) s ->
  Forall (fun v => vertexDistance CONFIG.DOME_CENTER_Y v = 0.7
                   /\ distanceFromCenter (frameParams t dt) (readLocals s)
                      < vertexDistance CONFIG.DOME_CENTER_Y v)
         generateDomeVertices.
Proof.
  intros [Hd _]. unfold generateDomeVertices.
  apply generateSphereVertices_Forall. intros i j.
  rewrite (onSphere_distance CONFIG.DOME_RADIUS)
    by apply getVertex_onSphere.
  unfold collisionRadius in Hd.
  change (domeRadius (frameParams t dt)) with CONFIG.DOME_RADIUS in Hd.
  unfold CONFIG.DOME_RADIUS in *. rewrite Rabs_right by lra.
  split; lra.
Qed.

Lemma dome_vertices_beyond_snow_witness :
  Forall (fun v => vertexDistance CONFIG.DOME_CENTER_Y v = 0.7
                   /\ distanceFromCenter (frameParams 0 0)
                        (readLocals (stepSnowflake (frameParams 0 0) 0
                                       outsideSnowflake))
                      < vertexDistance CONFIG.DOME_CENTER_Y v)
         generateDomeVertices.
Proof.
  apply (dome_vertices_beyond_snow 0 0).
  apply stepSnowflake_contained.
  - apply frameParams_valid. lra.
  - reflexivity.
Defined.


(** ** The snowflake sprite *)

Lemma Rsmoothstep_range (low high x : R) :
  0 <= Rsmoothstep low high x <= 1.
Proof.
  unfold Rsmoothstep. cbv zeta.
  set (t := Rmin (Rmax ((x - low) / (high - low)) 0) 1).
  assert (Ht : 0 <= t <= 1).
  { unfold t. split.
    - apply Rmin_glb; [apply Rmax_r | lra].
    - apply Rmin_r. }
  assert (0 <= t * t) by nra.
  assert (0 <= (1 - t) * (1 - t)) by nra.
  split; [nra|].
  assert (0 <= (1 - t) * (1 - t) * (1 + 2 * t))
    by (apply Rmult_le_pos; lra).
  lra.
Qed.

Lemma Rsmoothstep_high (low high x : R) :
  low < high -> high <= x -> Rsmoothstep low high x = 1.
Proof.
  intros Hlh Hx. unfold Rsmoothstep. cbv zeta.
  assert (1 <= (x - low) / (high - low)).
  { apply (Rmult_le_reg_r (high - low)); [lra|].
    unfold Rdiv. rewrite Rmult_assoc, Rinv_l by lra. lra. }
  rewrite Rmax_left by lra. rewrite Rmin_right by lra. lra.
Qed.

Lemma Rsmoothstep_low (low high x : R) :
  low < high -> x <= low -> Rsmoothstep low high x = 0.
Proof.
  intros Hlh Hx. unfold Rsmoothstep. cbv zeta.
  assert ((x - low) / (high - low) <= 0).
  { apply (Rmult_le_reg_r (high - low)); [lra|].
    unfold Rdiv. rewrite Rmult_assoc, Rinv_l by lra. lra. }
  rewrite Rmax_right by lra. rewrite Rmin_left by lra. lra.
Qed.

Lemma glow_range (d : R) : 0 <= d -> 0 < exp (0 - d * 4) <= 1.
Proof.
  intros Hd. split; [apply exp_pos|].
  destruct (Req_dec d 0) as [->|Hne].
  - replace (0 - 0 * 4) with 0 by lra. rewrite exp_0. lra.
  - rewrite <- exp_0. left. apply exp_increasing. lra.
Qed.

Lemma snowflakeFragmentFn_R (uv : vec2f R) (alpha : R) :
  snowflakeFragmentFn uv alpha =
  if Rltb 0.5 (spriteRadius uv) then None
  else Some (d_vec4f
               (0.95 + exp (0 - spriteRadius uv * 4) * 0.05)
               (0.97 + exp (0 - spriteRadius uv * 4) * 0.03)
               1
               (alpha * (1 - Rsmoothstep 0.3 0.5 (spriteRadius uv))
                * (0.7 + exp (0 - spriteRadius uv * 4) * 0.3))).
Proof.
  unfold snowflakeFragmentFn. to_R_builtins. fold (spriteRadius uv).
  destruct (Rltb 0.5 (spriteRadius uv)); [reflexivity|].
  replace (Q2R 1.0) with 1 by lra. replace (Q2R 0.0) with 0 by lra.
  replace (Q2R 4.0) with 4 by lra. reflexivity.
Qed.

(** X23 (over the reals). The sprite of a snowflake is a disc with a soft
    rim.  A fragment farther than 0.5 from the centre of the quad is
    discarded.  Any other fragment is nearly white (red above 0.95, green
    above 0.97, blue 1, none above 1) and, for a particle opacity that is
    not negative, has an opacity between 0 and that of the particle: equal
    to it at the centre, where the colour is white, and 0 on the rim. *)
Theorem snowflakeFragmentFn_disc (uv : vec2f R) (alpha : R) :
  (0.5 < spriteRadius uv -> snowflakeFragmentFn uv alpha = None)
  /\ (spriteRadius uv <= 0.5 ->
      exists c, snowflakeFragmentFn uv alpha = Some c
        /\ 0.95 < vec4_x c <= 1 /\ 0.97 < vec4_y c <= 1 /\ vec4_z c = 1
        /\ (0 <= alpha -> 0 <= vec4_w c <= alpha)
        /\ (spriteRadius uv = 0.5 -> vec4_w c = 0)
        /\ (spriteRadius uv = 0 ->
            vec4_w c = alpha /\ vec4_x c = 1 /\ vec4_y c = 1)).
Proof.
  rewrite snowflakeFragmentFn_R. split.
  - intros Hout. rewrite Rltb_true by assumption. reflexivity.
  - intros Hin. rewrite Rltb_false by assumption.
    eexists. split; [reflexivity|]. cbn [vec4_x vec4_y vec4_z vec4_w].
    assert (Hd : 0 <= spriteRadius uv) by apply sqrt_pos.
    pose proof (glow_range _ Hd) as Hg.
    pose proof (Rsmoothstep_range 0.3 0.5 (spriteRadius uv)) as Hs.
    set (g := exp (0 - spriteRadius uv * 4)) in *.
    set (e := Rsmoothstep 0.3 0.5 (spriteRadius uv)) in *.
    split; [lra|]. split; [lra|]. split; [reflexivity|].
    split; [|split].
    + intros Halpha.
      assert (0 <= (1 - e) * (0.7 + g * 0.3) <= 1) by (split; nra).
      split; nra.
    + intros Hrim. subst e. rewrite Hrim.
      rewrite Rsmoothstep_high by lra. lra.
    + intros Hcentre. subst e g. rewrite Hcentre.
      rewrite Rsmoothstep_low by lra.
      replace (0 - 0 * 4) with 0 by lra. rewrite exp_0. repeat split; lra.
Qed.


(** ** The particle demo *)

Lemma Rleb_spec (a b : R) : reflect (a <= b) (Rleb a b).
Proof. unfold Rleb. destruct (Rle_dec a b); constructor; assumption. Qed.

Lemma random_range (seed : vec2f R) : 0 <= Particles.random seed < 1.
Proof. unfold Particles.random. to_R_builtins. apply Rfract_bounds. Qed.

Lemma updateParticle_expired (params : Particles.Params R) (idx : N)
    (p : Particles.Particle R) :
  Particles.life p <= 0 ->
  Particles.life (Particles.updateParticle params idx p) = 1
  /\ Particles.inSpawnBox (Particles.updateParticle params idx p).
Proof.
  intros Hdead. unfold Particles.updateParticle. to_R_builtins.
  replace (Q2R 0) with 0 by lra.
  destruct (Rleb_spec (Particles.life p) 0) as [_|Halive]; [|lra].
  cbn [Particles.life]. split; [lra|].
  unfold Particles.inSpawnBox.
  cbn [Particles.position Particles.velocity vec_x vec_y vec_z].
  repeat match goal with
  | |- context [Particles.random ?s] =>
      lazymatch goal with
      | _ : 0 <= Particles.random s < 1 |- _ => fail
      | _ => pose proof (random_range s)
      end
  end.
  repeat split; lra.
Qed.

Lemma updateParticle_alive (params : Particles.Params R) (idx : N)
    (p : Particles.Particle R) :
  0 < Particles.life p ->
  Particles.updateParticle params idx p =
  Particles.mkParticle
    (Particles.add3 (Particles.position p)
       (Particles.mul3
          (Particles.add3 (Particles.velocity p)
             (Particles.mul3 (Particles.gravity params)
                (Particles.deltaTime params)))
          (Particles.deltaTime params)))
    (Particles.add3 (Particles.velocity p)
       (Particles.mul3 (Particles.gravity params)
          (Particles.deltaTime params)))
    (Particles.life p - Particles.deltaTime params).
Proof.
  intros Halive. unfold Particles.updateParticle. to_R_builtins.
  replace (Q2R 0) with 0 by lra.
  destruct (Rleb_spec (Particles.life p) 0) as [Hdead|_]; [lra|].
  reflexivity.
Qed.

(** X24 (over the reals). An expired particle ([life <= 0]) is created
    anew whatever the index and the time: its life is 1, each coordinate of
    its position is in [[-5, 5)] and each component of its velocity in
    [[-0.5, 0.5)]; it is not integrated in that frame.  A particle that is
    alive ([life > 0]) loses exactly [deltaTime] of life, gains
    [gravity * deltaTime] of velocity and moves by the new velocity times
    [deltaTime]. *)
Theorem updateParticle_life (params : Particles.Params R) (idx : N)
    (p : Particles.Particle R) :
  (Particles.life p <= 0 ->
   Particles.life (Particles.updateParticle params idx p) = 1
   /\ Particles.inSpawnBox (Particles.updateParticle params idx p))
  /\ (0 < Particles.life p ->
      let p' := Particles.updateParticle params idx p in
      Particles.life p' = Particles.life p - Particles.deltaTime params
      /\ Particles.velocity p'
         = vadd (Particles.velocity p)
             (scale (Particles.deltaTime params) (Particles.gravity params))
      /\ Particles.position p'
         = vadd (Particles.position p)
             (scale (Particles.deltaTime params) (Particles.velocity p'))).
Proof.
  split; [apply updateParticle_expired|].
  intros Halive. cbv zeta. rewrite updateParticle_alive by assumption.
  cbn [Particles.life Particles.velocity Particles.position].
  split; [reflexivity|].
  split; apply vec3f_eq; unfold Particles.add3, Particles.mul3; to_R_builtins;
    cbn [vadd scale vec_x vec_y vec_z]; ring.
Qed.

Lemma updateParticle_life_bounds (params : Particles.Params R) (idx : N)
    (p : Particles.Particle R) :
  0 <= Particles.deltaTime params ->
  Particles.life p <= 1 ->
  - Particles.deltaTime params
    < Particles.life (Particles.updateParticle params idx p) <= 1.
Proof.
  intros Hdt Hlife.
  destruct (Rle_dec (Particles.life p) 0) as [Hdead|Halive].
  - destruct (updateParticle_expired params idx p Hdead) as [-> _]. lra.
  - rewrite updateParticle_alive by lra. cbn [Particles.life]. lra.
Qed.

(** X25 (over the reals). The life of a particle stays in range: when no
    time step is negative and the particle starts with a life of at most 1
    (as the initial and the re-created particles do), its life is at most 1
    after every frame, and after a frame of time step [deltaTime] it is
    above [- deltaTime]: a particle is drawn expired for at most the frame
    in which it runs out. *)
Theorem particleFrames_life (frames : list (Particles.Params R))
    (last : Particles.Params R) (idx : N) (p : Particles.Particle R) :
  Forall (fun params => 0 <= Particles.deltaTime params) (frames ++ [last]) ->
  Particles.life p <= 1 ->
  - Particles.deltaTime last
    < Particles.life (Particles.particleFrames (frames ++ [last]) idx p)
    <= 1.
Proof.
  intros Hdts Hlife. apply Forall_app in Hdts as [Hdts Hlast].
  apply Forall_cons in Hlast as [Hlast _].
  unfold Particles.particleFrames. rewrite foldl_app. cbn [foldl].
  apply updateParticle_life_bounds; [assumption|].
  clear Hlast. revert p Hlife.
  induction frames as [|params frames IH]; intros p Hlife; cbn [foldl].
  - assumption.
  - apply Forall_cons in Hdts as [Hdt Hdts]. apply IH; [assumption|].
    apply updateParticle_life_bounds; assumption.
Qed.

Lemma particleFrames_life_witness :
  - Particles.deltaTime Particles.demoFrame
    < Particles.life
        (Particles.particleFrames
           ([Particles.demoFrame] ++ [Particles.demoFrame]) 7
           Particles.fadingParticle)
    <= 1.
Proof.
  apply (particleFrames_life [Particles.demoFrame] Particles.demoFrame 7
           Particles.fadingParticle).
  - repeat constructor;
      unfold Particles.demoFrame; cbn [Particles.deltaTime]; lra.
  - unfold Particles.fadingParticle. cbn [Particles.life]. lra.
Defined.
